(** * Album ordering: path merge, key cache and ordering resolution

    A shallow embedding of [album.go].  Go strings are byte sequences and
    are modelled by [string] (a list of 8-bit [ascii] characters); slices
    are modelled by [list]; a run-time panic (index out of range) is an
    explicit [Panic] outcome; the pair [(T, error)] returned by a Go
    function is a pair [T * option error], [None] being the [nil] error. *)

From Stdlib Require Import List String Ascii Bool Arith ZArith Lia.
Import ListNotations.

Local Open Scope string_scope.
Local Open Scope list_scope.

(** ** Strings *)

Module Strings.

(** [strings.IndexByte(cutset, c) >= 0] *)
Fixpoint containsByte (cutset : string) (c : ascii) : bool :=
    match cutset with
    | EmptyString => false
    | String d rest => if Ascii.eqb d c then true else containsByte rest c
    end.

(** [strings.TrimLeft(s, cutset)]: [s] without all leading bytes contained
      in [cutset].  (Go works on code points; for a cutset made of ASCII
      bytes, as the only one used here, that is the same as working on
      bytes.) *)
Fixpoint TrimLeft (s cutset : string) : string :=
    match s with
    | EmptyString => EmptyString
    | String c rest => if containsByte cutset c then TrimLeft rest cutset else s
    end.

(** [s[n:]] for [n <= len(s)] *)
Fixpoint from (n : nat) (s : string) : string :=
    match n, s with
    | O, _ => s
    | S n', String _ rest => from n' rest
    | S _, EmptyString => EmptyString
    end.

(** [strings.HasSuffix(s, suffix)]:
      [len(s) >= len(suffix) && s[len(s)-len(suffix):] == suffix] *)
Definition HasSuffix (s suffix : string) : bool :=
    (String.length suffix <=? String.length s)%nat
    && String.eqb (from (String.length s - String.length suffix) s) suffix.

(** [s[len(s)-1]], the last byte of a string; [None] stands for the
      index-out-of-range panic on the empty string. *)
Fixpoint lastByte (s : string) : option ascii :=
    match s with
    | EmptyString => None
    | String c EmptyString => Some c
    | String _ rest => lastByte rest
    end.

(** Whether the last byte of [s] is [c]; not so for the empty string. *)
Definition endsWith (s : string) (c : ascii) : bool :=
  match lastByte s with
  | Some d => Ascii.eqb d c
  | None => false
  end.

End Strings.

(** ** PathMerge: [containsPath] and [mergeList] *)

Module PathMerge.
Import Strings.

(** The normal form under which two keys are compared. *)
Definition stripped (key : string) : string := TrimLeft key "/".

Fixpoint containsPath (corpus : list string) (findme : string) : bool :=
    let findmeStripped := TrimLeft findme "/" in
    match corpus with
    | [] => false
    | current :: rest =>
        let currentStripped := TrimLeft current "/" in
        if String.eqb currentStripped findmeStripped then true
        else containsPath rest findme
    end.

(** First loop of [mergeList]: one iteration. *)
Definition takeConfigKey (bucketKeys mergedKeys : list string) (configKey : string)
    : list string :=
    if containsPath bucketKeys configKey then mergedKeys ++ [configKey]
    else mergedKeys.

(** Second loop of [mergeList]: one iteration. *)
Definition takeBucketKey (mergedKeys : list string) (bucketKey : string)
    : list string :=
    if negb (containsPath mergedKeys bucketKey) then mergedKeys ++ [bucketKey]
    else mergedKeys.

Definition mergeList (bucketKeys configKeys : list string) : list string :=
    let mergedKeys := fold_left (takeConfigKey bucketKeys) configKeys [] in
    fold_left takeBucketKey bucketKeys mergedKeys.

(** What the second loop appends to a list [seen] of keys already merged. *)
Fixpoint fresh (seen keys : list string) : list string :=
    match keys with
    | [] => []
    | k :: ks =>
        if containsPath seen k then fresh seen ks
        else k :: fresh (seen ++ [k]) ks
    end.

(** Absence of duplicates up to the normal form of keys. *)
Definition distinctKeys (keys : list string) : Prop :=
    NoDup (map stripped keys).

(** [Subseq l m]: [l] is [m] with some entries removed, order kept. *)
Inductive Subseq : list string -> list string -> Prop :=
  | Subseq_nil : Subseq [] []
  | Subseq_skip x l m : Subseq l m -> Subseq l (x :: m)
  | Subseq_keep x l m : Subseq l m -> Subseq (x :: l) (x :: m).

(** The comparison as the specification words it: a single leading
      separator is removed from a key. *)
Definition stripOne (key : string) : string :=
    match key with
    | String "/"%char rest => rest
    | _ => key
    end.

(** [n] separators. *)
Fixpoint separators (n : nat) : string :=
  match n with
  | O => ""
  | S n' => String "/" (separators n')
  end.

End PathMerge.

(** ** Albums: construction, the two caches and the resolution of an ordering *)

(** A computation that may panic. *)
Inductive outcome (A : Type) : Type :=
| Done (a : A)
| Panic.
Arguments Done {A} a.
Arguments Panic {A}.

Definition bind {A B : Type} (m : outcome A) (k : A -> outcome B) : outcome B :=
  match m with
  | Done a => k a
  | Panic => Panic
  end.

Notation "x <- m ;; k" := (bind m (fun x => k))
  (at level 61, m at next level, right associativity).
Notation "' p <- m ;; k" := (bind m (fun x => match x with p => k end))
  (at level 61, p pattern, m at next level, right associativity).

(** Go errors.  [RequestFailure] is an [awserr.RequestFailure] with its
    HTTP status code; every other error is an [OtherError]. *)
Inductive error : Type :=
| RequestFailure (statusCode : Z) (message : string)
| OtherError (message : string).

(** [time.Time] and [time.Duration] in nanoseconds. *)
Module Time.
Definition Hour : Z := 3600 * 1000000000.
Definition minDuration : Z := - 2 ^ 63.
Definition maxDuration : Z := 2 ^ 63 - 1.

(** [t.Sub(u)]: the difference, saturated to the range of a duration. *)
Definition Sub (t u : Z) : Z :=
    Z.max minDuration (Z.min maxDuration (t - u)).
End Time.

(** The two readings of [time.Now()] made by one cache operation: one for
    the staleness test and one for the time stamp of a stored value. *)
Record Clock : Type := { checkedAt : Z; storedAt : Z }.

Module AlbumOrderingConfiguration.
Record t : Type := {
    Cover : string;
    Thumbnails : list string;
    Ordering : list string;
    negativeCacheThis : bool
  }.

(** [var albumOrdering AlbumOrderingConfiguration] *)
Definition zero : t :=
    {| Cover := ""; Thumbnails := []; Ordering := []; negativeCacheThis := false |}.

Definition withNegativeCacheThis (c : t) (b : bool) : t :=
    {| Cover := Cover c; Thumbnails := Thumbnails c; Ordering := Ordering c;
       negativeCacheThis := b |}.
End AlbumOrderingConfiguration.

Module AlbumOrdering.
Section Renderables.
Variable Renderable : Type.

Record t : Type := {
      Cover : option Renderable;
      Thumbnails : list Renderable;
      Ordering : list Renderable
    }.

(** [var albumOrdering AlbumOrdering] *)
Definition zero : t := {| Cover := None; Thumbnails := []; Ordering := [] |}.
End Renderables.
Arguments Cover {Renderable} _.
Arguments Thumbnails {Renderable} _.
Arguments Ordering {Renderable} _.
Arguments zero {Renderable}.
End AlbumOrdering.

Module Albums.
Import Strings PathMerge.

Definition CACHE_INTERVAL : Z := 1 * Time.Hour.
Definition ORDERING_YAML_NAME : string := "ordering.yaml".

(** The album.  The site it belongs to and the two mutexes are left out:
      calls are modelled one after the other.  A cache slot is an
      [atomic.Value]: [None] until the first [Store]. *)
Record Album : Type := {
    Path : string;
    BucketPrefix : string;
    AuthUser : string;
    AuthPass : string;
    MetaTitle : string;
    AlbumTitle : string;
    InIndex : bool;
    KeyCache : option (list string);
    OrderingCache : option AlbumOrderingConfiguration.t;
    LastKeyCacheUpdate : Z;
    LastOrderingCacheUpdate : Z
  }.

Definition withPath (a : Album) (p : string) : Album :=
    {| Path := p; BucketPrefix := BucketPrefix a; AuthUser := AuthUser a;
       AuthPass := AuthPass a; MetaTitle := MetaTitle a; AlbumTitle := AlbumTitle a;
       InIndex := InIndex a; KeyCache := KeyCache a; OrderingCache := OrderingCache a;
       LastKeyCacheUpdate := LastKeyCacheUpdate a;
       LastOrderingCacheUpdate := LastOrderingCacheUpdate a |}.

(** [a.KeyCache.Store(keys); a.LastKeyCacheUpdate = time.Now()] *)
Definition storeKeys (a : Album) (keys : list string) (now : Z) : Album :=
    {| Path := Path a; BucketPrefix := BucketPrefix a; AuthUser := AuthUser a;
       AuthPass := AuthPass a; MetaTitle := MetaTitle a; AlbumTitle := AlbumTitle a;
       InIndex := InIndex a; KeyCache := Some keys; OrderingCache := OrderingCache a;
       LastKeyCacheUpdate := now;
       LastOrderingCacheUpdate := LastOrderingCacheUpdate a |}.

(** [a.OrderingCache.Store(albumOrdering); a.LastOrderingCacheUpdate = time.Now()] *)
Definition storeOrdering (a : Album) (o : AlbumOrderingConfiguration.t) (now : Z)
    : Album :=
    {| Path := Path a; BucketPrefix := BucketPrefix a; AuthUser := AuthUser a;
       AuthPass := AuthPass a; MetaTitle := MetaTitle a; AlbumTitle := AlbumTitle a;
       InIndex := InIndex a; KeyCache := KeyCache a; OrderingCache := Some o;
       LastKeyCacheUpdate := LastKeyCacheUpdate a;
       LastOrderingCacheUpdate := now |}.

(** *** Construction *)

Definition nonEmpty (s : string) : bool := negb (String.eqb s "").

Definition HasOwnAuth (a : Album) : bool :=
    nonEmpty (AuthUser a) && nonEmpty (AuthPass a).

Definition IsValid (a : Album) : option error :=
    if String.eqb (Path a) "" then
      Some (OtherError "'Path' is a required parameters that must have a valid value.")
    else if InIndex a && HasOwnAuth a then
      Some (OtherError "An album that requires authentication can't be shown in the index. If you need authentication please add it to the site.")
    else None.

(** [a.Path[len(a.Path)-1]] panics on the empty path. *)
Definition Canonicalize (a : Album) : outcome Album :=
    match lastByte (Path a) with
    | None => Panic
    | Some c =>
        if negb (Ascii.eqb c "/") then Done (withPath a (Path a ++ "/")%string)
        else Done a
    end.

(** [&Album{...}]: the fields not listed have their zero value. *)
Definition newAlbum (path bucketPrefix authUser authPass metaTitle albumTitle : string)
    : Album :=
    {| Path := path; BucketPrefix := bucketPrefix; AuthUser := authUser;
       AuthPass := authPass; MetaTitle := metaTitle; AlbumTitle := albumTitle;
       InIndex := true; KeyCache := None; OrderingCache := None;
       LastKeyCacheUpdate := 0; LastOrderingCacheUpdate := 0 |}.

Definition NewAlbum (path bucketPrefix authUser authPass metaTitle albumTitle : string)
    : outcome (option Album * option error) :=
    let album := newAlbum path bucketPrefix authUser authPass metaTitle albumTitle in
    match IsValid album with
    | Some err => Done (None, Some err)
    | None => album' <- Canonicalize album ;; Done (Some album', None)
    end.

Section FromConfig.
(** [section.MapTo(album)] of the ini library: fills the album from a
        section of the configuration file, or fails. *)
Variable IniSection : Type.
Variable MapTo : IniSection -> Album -> Album * option error.

Definition NewAlbumFromConfig (section : IniSection)
      : outcome (option Album * option error) :=
      let album := newAlbum "" "" "" "" "" "" in
      match MapTo section album with
      | (_, Some err) => Done (None, Some err)
      | (album, None) =>
          match IsValid album with
          | Some err => Done (None, Some err)
          | None => album' <- Canonicalize album ;; Done (Some album', None)
          end
      end.
End FromConfig.

(** *** Authentication

    The site of an album, as far as the album reads it: its two
    credentials.  [site.HasAuth()] is not part of this file and is taken as
    a value. *)
Module Site.
Record t : Type := { AuthUser : string; AuthPass : string }.
End Site.

Definition HasAuth (siteHasAuth : bool) (a : Album) : bool :=
  siteHasAuth || HasOwnAuth a.

Definition GetAuthUser (site : Site.t) (a : Album) : string :=
  if nonEmpty (AuthUser a) then AuthUser a else Site.AuthUser site.

Definition GetAuthPass (site : Site.t) (a : Album) : string :=
  if nonEmpty (AuthPass a) then AuthPass a else Site.AuthPass site.

(** *** KeyCache *)

(** [GetAllObjects]: what the listing of the bucket under the album's prefix
    gives, the error of [GetS3Service] or of [ListObjects] or the keys of
    [objects.Contents]. *)
Definition Listing : Type := (list string * option error)%type.

(** The loop of [GetAllObjectKeysFromBucket]: [key[len(key)-1]] panics on an
    empty key. *)
Fixpoint dropFolders (objects imageKeys : list string) : outcome (list string) :=
  match objects with
  | [] => Done imageKeys
  | key :: rest =>
      match lastByte key with
      | None => Panic
      | Some c =>
          if negb (Ascii.eqb c "/") then dropFolders rest (imageKeys ++ [key])
          else dropFolders rest imageKeys
      end
  end.

Definition GetAllObjectKeysFromBucket (GetAllObjects : Listing)
  : outcome (list string * option error) :=
  match GetAllObjects with
  | (_, Some err) => Done ([], Some err)
  | (objects, None) => imageKeys <- dropFolders objects [] ;; Done (imageKeys, None)
  end.

Definition NeedsKeyCacheUpdate (now : Z) (a : Album) : bool :=
  (CACHE_INTERVAL <? Time.Sub now (LastKeyCacheUpdate a))%Z.

Definition NeedsOrderingCacheUpdate (now : Z) (a : Album) : bool :=
  (CACHE_INTERVAL <? Time.Sub now (LastOrderingCacheUpdate a))%Z.

(** [GetAllObjectKeys], with the work of its goroutine run to its end: the
    result is what the caller receives on the channel, the album is the
    state the goroutine leaves. *)
Definition GetAllObjectKeys (GetAllObjects : Listing) (clock : Clock) (a : Album)
  : outcome ((list string * option error) * Album) :=
  match KeyCache a with
  | Some cached =>
      let result := (cached, None) in
      if NeedsKeyCacheUpdate (checkedAt clock) a then
        '(keys, err) <- GetAllObjectKeysFromBucket GetAllObjects ;;
        match err with
        | None => Done (result, storeKeys a keys (storedAt clock))
        | Some _ => Done (result, a)
        end
      else Done (result, a)
  | None =>
      '(keys, err) <- GetAllObjectKeysFromBucket GetAllObjects ;;
      match err with
      | None => Done ((keys, None), storeKeys a keys (storedAt clock))
      | Some e => Done (([], Some e), a)
      end
  end.

(** *** OrderingCache *)

(** What retrieving and parsing [ordering.yaml] gives: no S3 service, a
    failed [GetObject], or a document with the three fields [yaml.Unmarshal]
    left in the configuration and its error. *)
Inductive OrderingDocument : Type :=
| NoService (err : error)
| GetObjectFailed (err : error)
| Unmarshalled (cover : string) (thumbnails ordering : list string)
    (err : option error).

Definition isNotFound (err : error) : bool :=
  match err with
  | RequestFailure statusCode _ => (statusCode =? 404)%Z
  | OtherError _ => false
  end.

Section Preprocess.
(** [ResolveReference base ref]: the string of
    [url.Parse(base).ResolveReference(url.Parse(ref))]. *)
(** [ResolveReference base ref]: [url.Parse] of [base] and of [ref], the
    error dropped both times, then [ResolveReference] and [String].  [Done s]
    is the string obtained; [Panic] is the nil pointer dereferenced when
    [url.Parse] rejected its argument and gave no URL. *)
Variable ResolveReference : string -> string -> outcome string.

(** [for _, v := range keys { keys = append(keys, resolved v) }]: the range
    runs over the slice as it was when the loop started. *)
Fixpoint resolveAll (path : string) (keys appended : list string)
  : outcome (list string) :=
  match keys with
  | [] => Done appended
  | v :: rest =>
      fullPath <- ResolveReference path v ;;
      resolveAll path rest (appended ++ [fullPath])
  end.

Definition appendResolved (path : string) (keys : list string)
  : outcome (list string) :=
  resolveAll path keys keys.

Definition GetAlbumOrderingConfigurationFromS3AndPreprocess
    (document : OrderingDocument) (a : Album)
  : outcome (AlbumOrderingConfiguration.t * option error) :=
  let albumOrdering := AlbumOrderingConfiguration.zero in
  match document with
  | NoService err => Done (albumOrdering, Some err)
  | GetObjectFailed err =>
      Done (if isNotFound err
            then AlbumOrderingConfiguration.withNegativeCacheThis albumOrdering true
            else albumOrdering, Some err)
  | Unmarshalled cover thumbnails ordering (Some err) =>
      Done ({| AlbumOrderingConfiguration.Cover := cover;
               AlbumOrderingConfiguration.Thumbnails := thumbnails;
               AlbumOrderingConfiguration.Ordering := ordering;
               AlbumOrderingConfiguration.negativeCacheThis := true |}, Some err)
  | Unmarshalled cover thumbnails ordering None =>
      cover <- (if nonEmpty cover then ResolveReference (Path a) cover
                else Done cover) ;;
      thumbnails <- (if (0 <? List.length thumbnails)%nat
                     then appendResolved (Path a) thumbnails
                     else Done thumbnails) ;;
      ordering <- (if (0 <? List.length ordering)%nat
                   then appendResolved (Path a) ordering
                   else Done ordering) ;;
      Done ({| AlbumOrderingConfiguration.Cover := cover;
               AlbumOrderingConfiguration.Thumbnails := thumbnails;
               AlbumOrderingConfiguration.Ordering := ordering;
               AlbumOrderingConfiguration.negativeCacheThis := false |}, None)
  end.

(** [err == nil || albumOrdering.negativeCacheThis] *)
Definition cacheWorthy (fetched : AlbumOrderingConfiguration.t * option error) : bool :=
  match snd fetched with
  | None => true
  | Some _ => AlbumOrderingConfiguration.negativeCacheThis (fst fetched)
  end.

(** [GetAlbumOrderingConfiguration], with the work of its goroutine run to
    its end; a panic in the goroutine ends the program. *)
Definition GetAlbumOrderingConfiguration
    (document : OrderingDocument) (clock : Clock) (a : Album)
  : outcome ((AlbumOrderingConfiguration.t * option error) * Album) :=
  match OrderingCache a with
  | Some cached =>
      let result := (cached, None) in
      if NeedsOrderingCacheUpdate (checkedAt clock) a then
        fetched <- GetAlbumOrderingConfigurationFromS3AndPreprocess document a ;;
        if cacheWorthy fetched
        then Done (result, storeOrdering a (fst fetched) (storedAt clock))
        else Done (result, a)
      else Done (result, a)
  | None =>
      fetched <- GetAlbumOrderingConfigurationFromS3AndPreprocess document a ;;
      let a' := if cacheWorthy fetched
                then storeOrdering a (fst fetched) (storedAt clock) else a in
      match snd fetched with
      | Some err => Done ((AlbumOrderingConfiguration.zero, Some err), a')
      | None => Done ((fst fetched, None), a')
      end
  end.

(** The keys of a parsed document that the preprocessing resolves. *)
Definition configuredKeys (cover : string) (thumbnails ordering : list string)
  : list string :=
  (if nonEmpty cover then [cover] else []) ++ thumbnails ++ ordering.

(** *** OrderingResolver *)

(** [s[lo:hi]] for [lo <= hi <= len(s)] *)
Definition slice (s : list string) (lo hi : nat) : list string :=
  firstn (hi - lo) (skipn lo s).

(** [s[i]]; out of range it panics. *)
Definition index (s : list string) (i : nat) : outcome string :=
  match nth_error s i with
  | Some v => Done v
  | None => Panic
  end.

(** The keys of the listing without the ordering file. *)
Definition cleanKeys (imageKeys : list string) : list string :=
  fold_left (fun cleanImageKeys v =>
               if HasSuffix v ORDERING_YAML_NAME then cleanImageKeys
               else cleanImageKeys ++ [v]) imageKeys [].

Definition coverKey (cleanImageKeys : list string) (cover : string) : outcome string :=
  if nonEmpty cover then
    if containsPath cleanImageKeys cover then Done cover
    else index cleanImageKeys 0
  else index cleanImageKeys 0.

Definition thumbnailKeys (cleanImageKeys thumbnails : list string) : list string :=
  if (0 <? List.length thumbnails)%nat then
    let thumbKeys := mergeList cleanImageKeys thumbnails in
    if (5 <? List.length thumbKeys)%nat then slice thumbKeys 0 5
    else if (0 <? List.length thumbKeys)%nat then slice thumbKeys 0 (List.length thumbKeys)
    else thumbKeys
  else
    let thumbKeys := cleanImageKeys in
    if (6 <? List.length thumbKeys)%nat then slice thumbKeys 1 6
    else if (1 <? List.length thumbKeys)%nat then slice thumbKeys 1 (List.length thumbKeys)
    else thumbKeys.

(** What one call of [GetOrderedPhotos] finds outside the album. *)
Record World : Type := {
  document : OrderingDocument;
  orderingClock : Clock;
  listing : Listing;
  keyClock : Clock
}.

Variable Renderable : Type.
(** [a.site.GetPhotoForKey] *)
Variable GetPhotoForKey : string -> Renderable.

(** [GetOrderedPhotos].  The error of the configuration is only printed, and
    what [fmt.Printf] prints is not part of the model. *)
Definition GetOrderedPhotos (w : World) (a : Album)
  : outcome ((AlbumOrdering.t Renderable * option error) * Album) :=
  let albumOrdering := AlbumOrdering.zero in
  '((albumOrderingConfiguration, _), a) <-
    GetAlbumOrderingConfiguration (document w) (orderingClock w) a ;;
  '((imageKeys, err), a) <- GetAllObjectKeys (listing w) (keyClock w) a ;;
  match err with
  | Some e => Done ((albumOrdering, Some e), a)
  | None =>
      let cleanImageKeys := cleanKeys imageKeys in
      cover <- coverKey cleanImageKeys
                 (AlbumOrderingConfiguration.Cover albumOrderingConfiguration) ;;
      let thumbKeys :=
        thumbnailKeys cleanImageKeys
          (AlbumOrderingConfiguration.Thumbnails albumOrderingConfiguration) in
      let mergedOrdering :=
        mergeList cleanImageKeys
          (AlbumOrderingConfiguration.Ordering albumOrderingConfiguration) in
      Done (({| AlbumOrdering.Cover := Some (GetPhotoForKey cover);
                AlbumOrdering.Thumbnails := map GetPhotoForKey thumbKeys;
                AlbumOrdering.Ordering := map GetPhotoForKey mergedOrdering |},
             None), a)
  end.
(** The callers of [GetOrderedPhotos]; the template variants drop the error. *)
Definition GetCoverPhoto (w : World) (a : Album)
  : outcome ((option Renderable * option error) * Album) :=
  '((albumOrdering, err), a) <- GetOrderedPhotos w a ;;
  Done ((AlbumOrdering.Cover albumOrdering, err), a).

Definition GetCoverPhotoForTemplate (w : World) (a : Album)
  : outcome (option Renderable * Album) :=
  '((cover, _), a) <- GetCoverPhoto w a ;; Done (cover, a).

Definition GetThumbnailPhotosForTemplate (w : World) (a : Album)
  : outcome (list Renderable * Album) :=
  '((albumOrdering, _), a) <- GetOrderedPhotos w a ;;
  Done (AlbumOrdering.Thumbnails albumOrdering, a).
End Preprocess.

End Albums.

(** ** Scenarios

    Concrete albums and worlds on which the definitions are run. *)

Module Scenarios.
Import Albums.

(** A stand-in for the resolution of references: a plain relative key is
    put after an album path that ends with the separator; a key that starts
    with a percent sign stands for the keys that are no URL. *)
Definition joinReference (base ref : string) : outcome string :=
  match ref with
  | String "%" _ => Panic
  | _ => Done (base ++ ref)%string
  end.

(** Keys are rendered as themselves. *)
Definition showKey (key : string) : string := key.

Definition noon : Clock := {| checkedAt := 1000; storedAt := 1001 |}.

Definition album0 : Album := newAlbum "/album/" "album/" "" "" "" "".

(** The bucket holds the ordering file, an empty document, and nothing else. *)
Definition onlyOrderingFile : World :=
  {| document := Unmarshalled "" [] [] None;
     orderingClock := noon;
     listing := (["album/ordering.yaml"], None);
     keyClock := noon |}.

(** The ordering file cannot be retrieved; the listing works. *)
Definition brokenOrdering : World :=
  {| document := GetObjectFailed (RequestFailure 500 "InternalError");
     orderingClock := noon;
     listing := (["album/a.jpg"; "album/b.jpg"; "album/sub/"], None);
     keyClock := noon |}.

(** The ordering file parses, and its cover is no URL. *)
Definition unresolvableCover : World :=
  {| document := Unmarshalled "%zz.jpg" [] [] None;
     orderingClock := noon;
     listing := (["album/a.jpg"; "album/ordering.yaml"], None);
     keyClock := noon |}.

(** One photo and no ordering file. *)
Definition onePhoto : World :=
  {| document := GetObjectFailed (RequestFailure 404 "NoSuchKey");
     orderingClock := noon;
     listing := (["album/a.jpg"], None);
     keyClock := noon |}.

(** An album whose configuration is cached and fresh. *)
Definition configured : Album :=
  storeOrdering (newAlbum "/" "" "" "" "" "")
    {| AlbumOrderingConfiguration.Cover := "c.jpg";
       AlbumOrderingConfiguration.Thumbnails := ["b.jpg"];
       AlbumOrderingConfiguration.Ordering := ["d.jpg"];
       AlbumOrderingConfiguration.negativeCacheThis := false |} 999.

Definition fivePhotos : World :=
  {| document := NoService (OtherError "not asked");
     orderingClock := noon;
     listing := (["ordering.yaml"; "a.jpg"; "b.jpg"; "c.jpg"; "d.jpg"], None);
     keyClock := noon |}.

End Scenarios.

(** * Properties *)

Import Strings PathMerge Albums.

(** ** PathMerge *)

Section PathMergeFacts.

Example containsPath_leading_slashes :
  containsPath ["album/a.jpg"; "/album/b.jpg"] "//album/b.jpg" = true.
Proof. reflexivity. Qed.

Example mergeList_scenario :
  mergeList ["a.jpg"; "b.jpg"; "c.jpg"; "d.jpg"] ["d.jpg"]
  = ["d.jpg"; "a.jpg"; "b.jpg"; "c.jpg"].
Proof. reflexivity. Qed.

Lemma stripped_slash (key : string) :
  stripped (String "/" key) = stripped key.
Proof. reflexivity. Qed.

Lemma stripped_stripOne (key : string) :
  stripped (stripOne key) = stripped key.
Proof.
  destruct key as [|c rest]; [reflexivity|].
  unfold stripOne.
  destruct c as [[] [] [] [] [] [] [] []]; reflexivity.
Qed.

(** The loop of [containsPath] is a search for a key of the same normal form. *)
Lemma containsPath_existsb (corpus : list string) (findme : string) :
  containsPath corpus findme
  = existsb (fun current => String.eqb (stripped current) (stripped findme)) corpus.
Proof.
  induction corpus as [|current rest IH]; simpl; [reflexivity|].
  unfold stripped in *.
  destruct (String.eqb _ _); [reflexivity | exact IH].
Qed.

Lemma containsPath_true (corpus : list string) (findme : string) :
  containsPath corpus findme = true
  <-> exists current, In current corpus /\ stripped current = stripped findme.
Proof.
  rewrite containsPath_existsb, existsb_exists.
  split; intros [current [Hin Heq]]; exists current; split; trivial;
    now apply String.eqb_eq.
Qed.

Lemma containsPath_false (corpus : list string) (findme : string) :
  containsPath corpus findme = false
  <-> forall current, In current corpus -> stripped current <> stripped findme.
Proof.
  rewrite <- not_true_iff_false, containsPath_true.
  split.
  - intros H current Hin Heq. apply H. now exists current.
  - intros H [current [Hin Heq]]. now apply (H current).
Qed.

Lemma containsPath_In (corpus : list string) (key : string) :
  In key corpus -> containsPath corpus key = true.
Proof. intros Hin. apply containsPath_true. now exists key. Qed.

Lemma containsPath_app (l m : list string) (key : string) :
  containsPath (l ++ m) key = containsPath l key || containsPath m key.
Proof. rewrite !containsPath_existsb. apply existsb_app. Qed.

(** Only the normal form of the key looked up matters. *)
Lemma containsPath_stripped (corpus : list string) (k k' : string) :
  stripped k = stripped k' -> containsPath corpus k = containsPath corpus k'.
Proof. intros Heq. rewrite !containsPath_existsb. now rewrite Heq. Qed.

Lemma containsPath_map_stripped (corpus : list string) (key : string) :
  containsPath corpus key = true <-> In (stripped key) (map stripped corpus).
Proof.
  rewrite containsPath_true, in_map_iff.
  split; intros [current [H1 H2]]; exists current; tauto.
Qed.

(** The two loops of [mergeList]. *)
Lemma configLoop (bucketKeys configKeys mergedKeys : list string) :
  fold_left (takeConfigKey bucketKeys) configKeys mergedKeys
  = mergedKeys ++ filter (containsPath bucketKeys) configKeys.
Proof.
  revert mergedKeys.
  induction configKeys as [|k ks IH]; intros mergedKeys; simpl.
  - now rewrite app_nil_r.
  - rewrite IH. unfold takeConfigKey.
    destruct (containsPath bucketKeys k); [|reflexivity].
    now rewrite <- app_assoc.
Qed.

Lemma bucketLoop (bucketKeys mergedKeys : list string) :
  fold_left takeBucketKey bucketKeys mergedKeys
  = mergedKeys ++ fresh mergedKeys bucketKeys.
Proof.
  revert mergedKeys.
  induction bucketKeys as [|k ks IH]; intros mergedKeys; simpl.
  - now rewrite app_nil_r.
  - rewrite IH. unfold takeBucketKey.
    destruct (containsPath mergedKeys k); simpl; [reflexivity|].
    now rewrite <- app_assoc.
Qed.

Lemma mergeList_parts (A P : list string) :
  mergeList A P
  = filter (containsPath A) P ++ fresh (filter (containsPath A) P) A.
Proof. unfold mergeList. now rewrite configLoop, bucketLoop. Qed.

(** What [fresh] appends. *)
Lemma fresh_Subseq (seen keys : list string) : Subseq (fresh seen keys) keys.
Proof.
  revert seen.
  induction keys as [|k ks IH]; intros seen; simpl; [constructor|].
  destruct (containsPath seen k); constructor; apply IH.
Qed.

Lemma Subseq_In (l m : list string) (x : string) :
  Subseq l m -> In x l -> In x m.
Proof.
  induction 1 as [|y l m _ IH|y l m _ IH]; simpl; intros Hin; tauto.
Qed.

Lemma fresh_unseen (seen keys : list string) (y : string) :
  In y (fresh seen keys) -> containsPath seen y = false.
Proof.
  revert seen.
  induction keys as [|k ks IH]; intros seen; simpl; [tauto|].
  destruct (containsPath seen k) eqn:Hk; [apply IH|].
  intros [<- | Hin]; [exact Hk|].
  apply IH in Hin. rewrite containsPath_app in Hin.
  now apply orb_false_iff in Hin.
Qed.

Lemma fresh_distinct (seen keys : list string) : distinctKeys (fresh seen keys).
Proof.
  unfold distinctKeys. revert seen.
  induction keys as [|k ks IH]; intros seen; simpl; [constructor|].
  destruct (containsPath seen k); [apply IH|].
  simpl. constructor; [|apply IH].
  rewrite in_map_iff. intros [y [Heq Hin]].
  apply fresh_unseen in Hin. rewrite containsPath_app in Hin.
  apply orb_false_iff in Hin. destruct Hin as [_ Hin].
  simpl in Hin. unfold stripped in Heq. rewrite Heq, String.eqb_refl in Hin.
  discriminate.
Qed.

Lemma fresh_covers (seen keys : list string) (k : string) :
  In k keys -> containsPath (seen ++ fresh seen keys) k = true.
Proof.
  revert seen.
  induction keys as [|k' ks IH]; intros seen; simpl; [tauto|].
  intros [-> | Hin].
  - destruct (containsPath seen k) eqn:Hk.
    + rewrite containsPath_app, Hk. reflexivity.
    + rewrite containsPath_app. simpl. rewrite String.eqb_refl.
      apply orb_true_r.
  - destruct (containsPath seen k'); [now apply IH|].
    specialize (IH (seen ++ [k']) Hin).
    now rewrite <- app_assoc in IH.
Qed.

(** Without duplicates and with nothing seen before, every key is fresh. *)
Lemma fresh_all (seen keys : list string) :
  distinctKeys keys ->
  fresh seen keys = filter (fun k => negb (containsPath seen k)) keys.
Proof.
  unfold distinctKeys. revert seen.
  induction keys as [|k ks IH]; intros seen Hnd; simpl; [reflexivity|].
  simpl in Hnd. inversion Hnd as [|? ? Hk Hks]; subst.
  destruct (containsPath seen k) eqn:Hseen; simpl; [now apply IH|].
  f_equal. rewrite (IH _ Hks).
  apply filter_ext_in. intros y Hy.
  rewrite containsPath_app. simpl.
  destruct (String.eqb_spec (TrimLeft k "/") (TrimLeft y "/")) as [Heq|_].
  - contradiction Hk. apply in_map_iff. exists y. now split.
  - now rewrite orb_false_r.
Qed.

Lemma filter_distinct (f : string -> bool) (keys : list string) :
  distinctKeys keys -> distinctKeys (filter f keys).
Proof.
  unfold distinctKeys.
  induction keys as [|k ks IH]; simpl; intros Hnd; [constructor|].
  inversion Hnd as [|? ? Hk Hks]; subst.
  destruct (f k); simpl; [|now apply IH].
  constructor; [|now apply IH].
  rewrite in_map_iff. intros [y [Heq Hin]].
  apply Hk, in_map_iff. exists y. split; [exact Heq|].
  now apply filter_In in Hin.
Qed.

(** An entry of the authoritative list is among the preferred entries kept
    by the first loop as soon as it is among the preferred entries. *)
Lemma kept_preferred (A P : list string) (a : string) :
  In a A -> containsPath (filter (containsPath A) P) a = containsPath P a.
Proof.
  intros Hin.
  destruct (containsPath P a) eqn:HP.
  - apply containsPath_true in HP. destruct HP as [p [Hp Heq]].
    apply containsPath_true. exists p. split; [|exact Heq].
    apply filter_In. split; [exact Hp|].
    apply containsPath_true. exists a. now split.
  - apply containsPath_false. intros p Hp.
    rewrite containsPath_false in HP. apply HP.
    now apply filter_In in Hp.
Qed.

Lemma fresh_not_preferred (A P : list string) (y : string) :
  In y (fresh (filter (containsPath A) P) A) ->
  In y A /\ containsPath P y = false.
Proof.
  intros Hy.
  assert (HA : In y A) by (eapply Subseq_In; [apply fresh_Subseq | exact Hy]).
  split; [exact HA|].
  rewrite <- (kept_preferred A P y HA). now apply fresh_unseen in Hy.
Qed.

Lemma TrimLeft_cons (c : ascii) (rest : string) :
  TrimLeft (String c rest) "/"
  = if Ascii.eqb "/" c then TrimLeft rest "/" else String c rest.
Proof.
  cbn [TrimLeft containsByte]. destruct (Ascii.eqb "/" c); reflexivity.
Qed.

Lemma TrimLeft_separators (s : string) :
  exists n, s = (separators n ++ TrimLeft s "/")%string
            /\ stripOne (TrimLeft s "/") = TrimLeft s "/".
Proof.
  induction s as [|c rest [n [Hn Hs]]].
  - exists 0. now split.
  - rewrite TrimLeft_cons.
    destruct (Ascii.eqb_spec "/" c) as [<-|Hc].
    + exists (S n). cbn [separators String.append].
      split; [now rewrite <- Hn | exact Hs].
    + exists 0. split; [reflexivity|].
      unfold stripOne.
      destruct c as [[] [] [] [] [] [] [] []]; try reflexivity.
      now contradiction Hc.
Qed.

Lemma containsPath_map (f : string -> string) (corpus : list string) (key : string) :
  (forall current, stripped (f current) = stripped current) ->
  containsPath (map f corpus) key = containsPath corpus key.
Proof.
  intros Hf. rewrite !containsPath_existsb.
  induction corpus as [|current rest IH]; simpl; [reflexivity|].
  now rewrite Hf, IH.
Qed.

(** C7, as the claim words it, fails: the comparison removes every leading
    separator, not a single one, so a corpus entry with two leading
    separators is found under a key with none, although the two differ once
    a single separator is removed from each. *)
Lemma containsPath_single_separator_fails :
  ~ (containsPath ["//a.jpg"] "a.jpg" = true
     <-> exists current, In current ["//a.jpg"]
                         /\ stripOne current = stripOne "a.jpg").
Proof.
  intros [H _].
  destruct (H eq_refl) as [current [[<- | []] Heq]].
  discriminate Heq.
Qed.

(** C7 (amended): [containsPath corpus key] is true exactly when some element
    of the corpus equals the key after every leading separator is removed
    from both ([TrimLeft] leaves a string that starts with no separator); so
    the result does not change when a leading separator is added to the key,
    or when a single leading separator is removed from the key and from
    every element of the corpus. *)
Theorem containsPath_all_leading_separators (corpus : list string) (key : string) :
  (containsPath corpus key = true
   <-> exists current, In current corpus
                       /\ TrimLeft current "/" = TrimLeft key "/")
  /\ (exists n, key = (separators n ++ TrimLeft key "/")%string
                /\ stripOne (TrimLeft key "/") = TrimLeft key "/")
  /\ containsPath corpus (String "/" key) = containsPath corpus key
  /\ containsPath (map (String "/"%char) corpus) key = containsPath corpus key
  /\ containsPath (map stripOne corpus) (stripOne key) = containsPath corpus key.
Proof.
  split; [apply containsPath_true|].
  split; [apply TrimLeft_separators|].
  split; [apply containsPath_stripped, stripped_slash|].
  split.
  - apply containsPath_map, stripped_slash.
  - rewrite (containsPath_stripped _ _ _ (stripped_stripOne key)).
    apply containsPath_map, stripped_stripOne.
Qed.

(** C5, as the claim words it, fails: the second loop skips a key already
    merged, so an authoritative list with a repeated key is not returned
    unchanged. *)
Lemma mergeList_nil_repeated_key :
  mergeList ["a.jpg"; "a.jpg"] [] <> ["a.jpg"; "a.jpg"].
Proof. vm_compute. discriminate. Qed.

(** C5 (amended): for every list [A] without two equal keys (up to leading
    separators), [mergeList A []] is [A]. *)
Theorem mergeList_nil (A : list string) (HA : distinctKeys A) :
  mergeList A [] = A.
Proof.
  rewrite mergeList_parts. simpl.
  rewrite (fresh_all [] A HA). simpl.
  induction A as [|a A IH]; simpl; [reflexivity|].
  f_equal. apply IH. unfold distinctKeys in *. simpl in HA.
  now inversion HA.
Qed.

Lemma mergeList_nil_witness :
  mergeList ["a.jpg"; "/b.jpg"; "c.jpg"] [] = ["a.jpg"; "/b.jpg"; "c.jpg"].
Proof.
  apply (mergeList_nil ["a.jpg"; "/b.jpg"; "c.jpg"]).
  unfold distinctKeys. simpl.
  repeat constructor; simpl; intuition discriminate.
Defined.




Lemma filter_none (f : string -> bool) (l : list string) :
  (forall x, In x l -> f x = false) -> filter f l = [].
Proof.
  induction l as [|x l IH]; simpl; intros H; [reflexivity|].
  rewrite (H x (or_introl eq_refl)). apply IH. intros y Hy. apply H. now right.
Qed.

Lemma filter_every (f : string -> bool) (l : list string) :
  (forall x, In x l -> f x = true) -> filter f l = l.
Proof.
  induction l as [|x l IH]; simpl; intros H; [reflexivity|].
  rewrite (H x (or_introl eq_refl)). f_equal. apply IH.
  intros y Hy. apply H. now right.
Qed.

(** The entries of the output that are not preferred are the fresh ones. *)
Lemma mergeList_not_preferred (A P : list string) :
  filter (fun k => negb (containsPath P k)) (mergeList A P)
  = fresh (filter (containsPath A) P) A.
Proof.
  rewrite mergeList_parts, filter_app.
  rewrite filter_none, filter_every; [reflexivity| |].
  - intros y Hy. apply fresh_not_preferred in Hy. destruct Hy as [_ ->]. reflexivity.
  - intros p Hp. apply filter_In in Hp. destruct Hp as [Hp _].
    now rewrite (containsPath_In P p Hp).
Qed.

(** C4: in [mergeList A P] an entry that is among the preferred ones stands
    before every entry that is not; the entries that are not preferred are
    entries of [A] in the order of [A] (all of them, in that order, when [A]
    has no two equal keys); every entry of [A] is present and every entry of
    [P] found in [A] is kept.  Membership is up to leading separators, as in
    [containsPath]. *)
Theorem mergeList_preferred_first (A P : list string) :
  (forall i j p a,
      nth_error (mergeList A P) i = Some p -> containsPath P p = true ->
      nth_error (mergeList A P) j = Some a -> containsPath P a = false ->
      i < j)
  /\ Subseq (filter (fun k => negb (containsPath P k)) (mergeList A P)) A
  /\ (distinctKeys A ->
      filter (fun k => negb (containsPath P k)) (mergeList A P)
      = filter (fun k => negb (containsPath P k)) A)
  /\ (forall a, In a A -> containsPath (mergeList A P) a = true)
  /\ (forall p, In p P -> containsPath A p = true -> In p (mergeList A P)).
Proof.
  split; [|split; [|split; [|split]]].
  - rewrite mergeList_parts.
    set (kept := filter (containsPath A) P).
    intros i j p a Hi Hp Hj Ha.
    destruct (Nat.lt_ge_cases i (List.length kept)) as [Hlt | Hge].
    + destruct (Nat.lt_ge_cases j (List.length kept)) as [Hjlt | Hjge]; [|lia].
      rewrite nth_error_app1 in Hj by exact Hjlt.
      apply nth_error_In, filter_In in Hj. destruct Hj as [Hj _].
      rewrite (containsPath_In P a Hj) in Ha. discriminate.
    + rewrite nth_error_app2 in Hi by exact Hge.
      apply nth_error_In, fresh_not_preferred in Hi. destruct Hi as [_ Hi].
      congruence.
  - rewrite mergeList_not_preferred. apply fresh_Subseq.
  - intros HA. rewrite mergeList_not_preferred, (fresh_all _ A HA).
    apply filter_ext_in. intros a Ha. now rewrite kept_preferred.
  - intros a Ha. rewrite mergeList_parts. now apply fresh_covers.
  - intros p Hp HA. rewrite mergeList_parts. apply in_or_app. left.
    apply filter_In. now split.
Qed.

Lemma mergeList_preferred_first_witness :
  mergeList ["a.jpg"; "b.jpg"; "c.jpg"; "d.jpg"] ["d.jpg"; "x.jpg"; "b.jpg"]
  = ["d.jpg"; "b.jpg"; "a.jpg"; "c.jpg"]
  /\ 1 < 2.
Proof.
  split; [reflexivity|].
  apply (proj1 (mergeList_preferred_first
                  ["a.jpg"; "b.jpg"; "c.jpg"; "d.jpg"] ["d.jpg"; "x.jpg"; "b.jpg"])
           1 2 "b.jpg" "a.jpg"); reflexivity.
Defined.

End PathMergeFacts.

(** ** Albums *)

Section AlbumFacts.

Lemma lastByte_app_separator (s : string) :
  lastByte (s ++ "/")%string = Some "/"%char.
Proof.
  induction s as [|c rest IH]; [reflexivity|].
  cbn [String.append lastByte]. rewrite IH.
  destruct (rest ++ "/")%string eqn:E; [|reflexivity].
  destruct rest; discriminate E.
Qed.

Lemma lastByte_None (s : string) : lastByte s = None -> s = "".
Proof.
  induction s as [|c rest IH]; [reflexivity|].
  cbn [lastByte]. destruct rest; [discriminate|].
  intros H. apply IH in H. discriminate H.
Qed.

Lemma lastByte_nonempty (s : string) (c : ascii) :
  lastByte s = Some c -> s <> "".
Proof. destruct s; [discriminate | discriminate]. Qed.

Lemma IsValid_Path (a : Album) : IsValid a = None -> Path a <> "".
Proof.
  unfold IsValid. destruct (String.eqb_spec (Path a) ""); [discriminate|trivial].
Qed.

(** [Canonicalize] on a non-empty path: no panic, and a separator at the end. *)
Lemma Canonicalize_Path (a : Album) :
  Path a <> "" ->
  exists a', Canonicalize a = Done a'
             /\ lastByte (Path a') = Some "/"%char
             /\ Path a' = (if endsWith (Path a) "/" then Path a
                           else (Path a ++ "/")%string).
Proof.
  intros Hne. unfold Canonicalize, endsWith.
  destruct (lastByte (Path a)) as [c|] eqn:Hlast.
  - destruct (Ascii.eqb_spec c "/") as [->|Hc]; simpl.
    + exists a. auto.
    + exists (withPath a (Path a ++ "/")%string). simpl.
      split; [reflexivity|]. split; [apply lastByte_app_separator | reflexivity].
  - now apply lastByte_None in Hlast.
Qed.

Lemma GetAllObjectKeys_Path (GetAllObjects : Listing) (clock : Clock) (a a' : Album)
    (result : list string * option error) :
  GetAllObjectKeys GetAllObjects clock a = Done (result, a') -> Path a' = Path a.
Proof.
  unfold GetAllObjectKeys.
  destruct (KeyCache a); [destruct (NeedsKeyCacheUpdate _ a)|];
    try (intros [= <- <-]; reflexivity);
    (destruct (GetAllObjectKeysFromBucket GetAllObjects) as [[keys [e|]]|]; simpl;
     [intros [= <- <-] | intros [= <- <-] | discriminate]; reflexivity).
Qed.

Variable ResolveReference : string -> string -> outcome string.
Variable Renderable : Type.
Variable GetPhotoForKey : string -> Renderable.

(** The state [GetAlbumOrderingConfiguration] leaves when it returns: the
    album, or the album after a store. *)
Lemma GetAlbumOrderingConfiguration_state
    (document : OrderingDocument) (clock : Clock) (a a' : Album)
    (result : AlbumOrderingConfiguration.t * option error) :
  GetAlbumOrderingConfiguration ResolveReference document clock a = Done (result, a') ->
  a' = a \/ exists o, a' = storeOrdering a o (storedAt clock).
Proof.
  unfold GetAlbumOrderingConfiguration.
  destruct (OrderingCache a).
  - destruct (NeedsOrderingCacheUpdate _ a); [|intros [= <- <-]; now left].
    destruct (GetAlbumOrderingConfigurationFromS3AndPreprocess _ _ a) as [fetched|];
      simpl; [|discriminate].
    destruct (cacheWorthy fetched); intros [= <- <-];
      [right; eexists; reflexivity | now left].
  - destruct (GetAlbumOrderingConfigurationFromS3AndPreprocess _ _ a) as [fetched|];
      simpl; [|discriminate].
    destruct (cacheWorthy fetched); destruct (snd fetched); intros [= <- <-];
      first [now left | right; eexists; reflexivity].
Qed.

Lemma GetAlbumOrderingConfiguration_Path
    (document : OrderingDocument) (clock : Clock) (a a' : Album)
    (result : AlbumOrderingConfiguration.t * option error) :
  GetAlbumOrderingConfiguration ResolveReference document clock a = Done (result, a') ->
  Path a' = Path a.
Proof.
  intros H. apply GetAlbumOrderingConfiguration_state in H.
  destruct H as [-> | [o ->]]; reflexivity.
Qed.

(** A failed retrieval of the configuration hands the empty configuration
    to the caller. *)
Lemma GetAlbumOrderingConfiguration_error
    (document : OrderingDocument) (clock : Clock) (a a' : Album)
    (cfg : AlbumOrderingConfiguration.t) (e : error) :
  GetAlbumOrderingConfiguration ResolveReference document clock a
  = Done ((cfg, Some e), a') ->
  cfg = AlbumOrderingConfiguration.zero.
Proof.
  unfold GetAlbumOrderingConfiguration.
  destruct (OrderingCache a).
  - destruct (NeedsOrderingCacheUpdate _ a); [|discriminate].
    destruct (GetAlbumOrderingConfigurationFromS3AndPreprocess _ _ a) as [fetched|];
      simpl; [|discriminate].
    destruct (cacheWorthy fetched); discriminate.
  - destruct (GetAlbumOrderingConfigurationFromS3AndPreprocess _ _ a) as [fetched|];
      simpl; [|discriminate].
    destruct (snd fetched); [now intros [= <- _ _] | discriminate].
Qed.

Lemma GetOrderedPhotos_Path (w : World) (a a' : Album)
    (result : AlbumOrdering.t Renderable * option error) :
  GetOrderedPhotos ResolveReference Renderable GetPhotoForKey w a = Done (result, a') ->
  Path a' = Path a.
Proof.
  unfold GetOrderedPhotos.
  destruct (GetAlbumOrderingConfiguration _ _ _ a) as [[[cfg e] a1]|] eqn:H1;
    simpl; [|discriminate].
  apply GetAlbumOrderingConfiguration_Path in H1.
  destruct (GetAllObjectKeys (listing w) (keyClock w) a1)
    as [[[keys err] a2]|] eqn:H2; simpl; [|discriminate].
  apply GetAllObjectKeys_Path in H2.
  destruct err; [intros [= <- <-]; congruence|].
  destruct (coverKey _ _); simpl; [|discriminate].
  intros [= <- <-]; congruence.
Qed.

Lemma cleanLoop (imageKeys cleanImageKeys : list string) :
  fold_left (fun cleanImageKeys v =>
               if HasSuffix v ORDERING_YAML_NAME then cleanImageKeys
               else cleanImageKeys ++ [v]) imageKeys cleanImageKeys
  = cleanImageKeys
    ++ filter (fun v => negb (HasSuffix v ORDERING_YAML_NAME)) imageKeys.
Proof.
  revert cleanImageKeys.
  induction imageKeys as [|v vs IH]; intros cleanImageKeys; simpl.
  - now rewrite app_nil_r.
  - rewrite IH. destruct (HasSuffix v ORDERING_YAML_NAME); simpl; [reflexivity|].
    now rewrite <- app_assoc.
Qed.

Lemma cleanKeys_filter (imageKeys : list string) :
  cleanKeys imageKeys
  = filter (fun v => negb (HasSuffix v ORDERING_YAML_NAME)) imageKeys.
Proof. unfold cleanKeys. now rewrite cleanLoop. Qed.

Lemma resolveAll_Done (path : string) (resolved : string -> string)
    (keys appended : list string) :
  (forall v, In v keys -> ResolveReference path v = Done (resolved v)) ->
  resolveAll ResolveReference path keys appended
  = Done (appended ++ map resolved keys).
Proof.
  revert appended.
  induction keys as [|v vs IH]; intros appended H; simpl.
  - now rewrite app_nil_r.
  - rewrite (H v (or_introl eq_refl)). simpl.
    rewrite IH by (intros v' Hv'; apply H; now right).
    now rewrite <- app_assoc.
Qed.

Lemma resolveAll_Panic (path : string) (keys appended : list string) (key : string) :
  In key keys -> ResolveReference path key = Panic ->
  resolveAll ResolveReference path keys appended = Panic.
Proof.
  revert appended.
  induction keys as [|v vs IH]; intros appended Hin Hkey; simpl; [contradiction|].
  destruct Hin as [-> | Hin]; [now rewrite Hkey|].
  destruct (ResolveReference path v); simpl; [now apply IH | reflexivity].
Qed.

Lemma coverKey_nonempty (cleanImageKeys : list string) (cover : string) :
  cleanImageKeys <> [] -> exists key, coverKey cleanImageKeys cover = Done key.
Proof.
  intros Hne. unfold coverKey, index.
  destruct cleanImageKeys as [|k ks]; [contradiction|].
  cbn [nth_error].
  destruct (nonEmpty cover); [destruct (containsPath (k :: ks) cover)|]; eauto.
Qed.

Lemma coverKey_empty (cover : string) : coverKey [] cover = Panic.
Proof. unfold coverKey. destruct (nonEmpty cover); reflexivity. Qed.

(** C1: when the listing succeeds and no key is left once the ordering
    file is removed, [GetOrderedPhotos] indexes the empty list of clean keys
    for the cover and panics; it returns no error. *)
Theorem GetOrderedPhotos_empty_album (w : World) (a a2 : Album) (keys : list string) :
  (forall result a1,
      GetAlbumOrderingConfiguration ResolveReference
        (document w) (orderingClock w) a = Done (result, a1) ->
      GetAllObjectKeys (listing w) (keyClock w) a1 = Done ((keys, None), a2)) ->
  cleanKeys keys = [] ->
  GetOrderedPhotos ResolveReference Renderable GetPhotoForKey w a = Panic.
Proof.
  intros Hkeys Hclean. unfold GetOrderedPhotos.
  destruct (GetAlbumOrderingConfiguration _ _ _ a) as [[[cfg e] a1]|];
    simpl; [|reflexivity].
  rewrite (Hkeys _ _ eq_refl). simpl.
  now rewrite Hclean, coverKey_empty.
Qed.

Lemma preprocess_Done
    (cover : string) (thumbnails ordering : list string) (a : Album)
    (resolved : string -> string) :
  (forall key, In key (configuredKeys cover thumbnails ordering) ->
               ResolveReference (Path a) key = Done (resolved key)) ->
  GetAlbumOrderingConfigurationFromS3AndPreprocess ResolveReference
    (Unmarshalled cover thumbnails ordering None) a
  = Done ({| AlbumOrderingConfiguration.Cover :=
               if nonEmpty cover then resolved cover else "";
             AlbumOrderingConfiguration.Thumbnails :=
               thumbnails ++ map resolved thumbnails;
             AlbumOrderingConfiguration.Ordering :=
               ordering ++ map resolved ordering;
             AlbumOrderingConfiguration.negativeCacheThis := false |}, None).
Proof.
  unfold configuredKeys, GetAlbumOrderingConfigurationFromS3AndPreprocess.
  intros H.
  assert (Hc : (if nonEmpty cover then ResolveReference (Path a) cover
                else Done cover)
               = Done (if nonEmpty cover then resolved cover else "")).
  { unfold nonEmpty in *. destruct (String.eqb_spec cover "") as [->|_]; simpl in *.
    - reflexivity.
    - apply H. now left. }
  assert (Hl : forall keys,
             (forall key, In key keys ->
                          ResolveReference (Path a) key = Done (resolved key)) ->
             (if (0 <? List.length keys)%nat
              then appendResolved ResolveReference (Path a) keys else Done keys)
             = Done (keys ++ map resolved keys)).
  { intros keys Hk. destruct keys as [|k ks]; [reflexivity|].
    change (0 <? List.length (k :: ks))%nat with true. cbv iota.
    unfold appendResolved. now apply resolveAll_Done. }
  rewrite Hc. cbn [bind].
  rewrite (Hl thumbnails)
    by (intros key Hk; apply H; apply in_or_app; right; apply in_or_app; now left).
  cbn [bind].
  rewrite (Hl ordering)
    by (intros key Hk; apply H; apply in_or_app; right; apply in_or_app; now right).
  reflexivity.
Qed.

Lemma preprocess_Panic
    (cover : string) (thumbnails ordering : list string) (a : Album) (key : string) :
  In key (configuredKeys cover thumbnails ordering) ->
  ResolveReference (Path a) key = Panic ->
  GetAlbumOrderingConfigurationFromS3AndPreprocess ResolveReference
    (Unmarshalled cover thumbnails ordering None) a = Panic.
Proof.
  unfold configuredKeys, GetAlbumOrderingConfigurationFromS3AndPreprocess.
  intros Hin Hkey.
  assert (Hl : forall keys,
             In key keys ->
             (if (0 <? List.length keys)%nat
              then appendResolved ResolveReference (Path a) keys else Done keys)
             = Panic).
  { intros keys Hk. destruct keys as [|k ks]; [contradiction|].
    change (0 <? List.length (k :: ks))%nat with true. cbv iota.
    unfold appendResolved. now apply (resolveAll_Panic _ _ _ key). }
  apply in_app_or in Hin. destruct Hin as [Hin | Hin].
  - destruct (nonEmpty cover); [|contradiction].
    destruct Hin as [-> | []]. now rewrite Hkey.
  - destruct (if nonEmpty cover then ResolveReference (Path a) cover else Done cover);
      cbn [bind]; [|reflexivity].
    apply in_app_or in Hin. destruct Hin as [Hin | Hin].
    + now rewrite (Hl thumbnails Hin).
    + destruct (if (0 <? List.length thumbnails)%nat
                then appendResolved ResolveReference (Path a) thumbnails
                else Done thumbnails); cbn [bind]; [|reflexivity].
      now rewrite (Hl ordering Hin).
Qed.

(** C2: for a document that parses and whose keys all resolve, the
    preprocessing leaves in [Thumbnails] and in [Ordering] the configured
    keys as they were written, followed by the same keys resolved against
    the album's path: two entries for every configured one.  Only [Cover] is
    replaced by its resolved form.  When a configured key does not resolve,
    the preprocessing panics. *)
Theorem preprocess_appends_resolved_keys
    (cover : string) (thumbnails ordering : list string) (a : Album) :
  (forall resolved : string -> string,
      (forall key, In key (configuredKeys cover thumbnails ordering) ->
                   ResolveReference (Path a) key = Done (resolved key)) ->
      GetAlbumOrderingConfigurationFromS3AndPreprocess ResolveReference
        (Unmarshalled cover thumbnails ordering None) a
      = Done ({| AlbumOrderingConfiguration.Cover :=
                   if nonEmpty cover then resolved cover else "";
                 AlbumOrderingConfiguration.Thumbnails :=
                   thumbnails ++ map resolved thumbnails;
                 AlbumOrderingConfiguration.Ordering :=
                   ordering ++ map resolved ordering;
                 AlbumOrderingConfiguration.negativeCacheThis := false |}, None))
  /\ (forall key,
         In key (configuredKeys cover thumbnails ordering) ->
         ResolveReference (Path a) key = Panic ->
         GetAlbumOrderingConfigurationFromS3AndPreprocess ResolveReference
           (Unmarshalled cover thumbnails ordering None) a = Panic).
Proof.
  split.
  - intros resolved H. now apply preprocess_Done.
  - intros key Hin Hkey. now apply (preprocess_Panic _ _ _ _ key).
Qed.

(** The failing input of C2: one configured thumbnail gives two entries, the
    key as written and the resolved key. *)
Example preprocess_one_thumbnail (a : Album) (resolved : string) :
  ResolveReference (Path a) "a.jpg" = Done resolved ->
  GetAlbumOrderingConfigurationFromS3AndPreprocess ResolveReference
    (Unmarshalled "" ["a.jpg"] [] None) a
  = Done ({| AlbumOrderingConfiguration.Cover := "";
             AlbumOrderingConfiguration.Thumbnails := ["a.jpg"; resolved];
             AlbumOrderingConfiguration.Ordering := [];
             AlbumOrderingConfiguration.negativeCacheThis := false |}, None).
Proof.
  intros H. unfold GetAlbumOrderingConfigurationFromS3AndPreprocess, appendResolved.
  simpl. now rewrite H.
Qed.

(** C6: without configured thumbnails, an album of a single clean key gets
    that key, the cover position, as its only thumbnail; with two clean keys
    or more the thumbnails are the up to five keys after the first. *)
Theorem thumbnailKeys_unconfigured :
  (forall cover, thumbnailKeys [cover] [] = [cover])
  /\ (forall cleanImageKeys,
         2 <= List.length cleanImageKeys ->
         thumbnailKeys cleanImageKeys [] = firstn 5 (skipn 1 cleanImageKeys)).
Proof.
  split; [reflexivity|].
  intros keys Hlen. unfold thumbnailKeys, slice.
  change (0 <? List.length (@nil string))%nat with false. cbv iota.
  destruct (Nat.ltb_spec 6 (List.length keys)) as [H6|H6]; [reflexivity|].
  destruct (Nat.ltb_spec 1 (List.length keys)) as [H1|H1]; [|lia].
  rewrite !firstn_all2; trivial; rewrite length_skipn; lia.
Qed.

(** C8: on an empty or stale ordering cache, a document that parses but
    holds a key that does not resolve makes [GetOrderedPhotos] panic,
    whatever the listing of the bucket gives: it returns neither an
    ordering nor an error. *)
Theorem GetOrderedPhotos_unresolvable_key
    (w : World) (a : Album) (cover : string) (thumbnails ordering : list string)
    (key : string) :
  OrderingCache a = None
  \/ NeedsOrderingCacheUpdate (checkedAt (orderingClock w)) a = true ->
  document w = Unmarshalled cover thumbnails ordering None ->
  In key (configuredKeys cover thumbnails ordering) ->
  ResolveReference (Path a) key = Panic ->
  GetOrderedPhotos ResolveReference Renderable GetPhotoForKey w a = Panic.
Proof.
  intros Hcache Hdoc Hin Hkey.
  assert (Hpre : GetAlbumOrderingConfigurationFromS3AndPreprocess ResolveReference
                   (document w) a = Panic)
    by (rewrite Hdoc; now apply (preprocess_Panic _ _ _ _ key)).
  unfold GetOrderedPhotos, GetAlbumOrderingConfiguration.
  destruct (OrderingCache a) as [cached|].
  - destruct Hcache as [Hnone | Hstale]; [discriminate|].
    now rewrite Hstale, Hpre.
  - now rewrite Hpre.
Qed.

(** When the retrieval of the ordering document returns, the listing
    succeeds and a clean key is left, [GetOrderedPhotos] returns an ordering
    and the nil error; when the retrieval returned an error to this call,
    the ordering is the one of the empty configuration: the first clean key
    as cover, the unconfigured thumbnails, and the merge with no preferred
    key as ordering. *)
Theorem GetOrderedPhotos_after_retrieval
    (w : World) (a a1 a2 : Album) (keys : list string)
    (cfg : AlbumOrderingConfiguration.t) (e : option error) :
  GetAlbumOrderingConfiguration ResolveReference (document w) (orderingClock w) a
  = Done ((cfg, e), a1) ->
  GetAllObjectKeys (listing w) (keyClock w) a1 = Done ((keys, None), a2) ->
  cleanKeys keys <> [] ->
  exists albumOrdering,
    GetOrderedPhotos ResolveReference Renderable GetPhotoForKey w a
    = Done ((albumOrdering, None), a2)
    /\ (e <> None ->
        albumOrdering
        = {| AlbumOrdering.Cover :=
               option_map GetPhotoForKey (hd_error (cleanKeys keys));
             AlbumOrdering.Thumbnails :=
               map GetPhotoForKey (thumbnailKeys (cleanKeys keys) []);
             AlbumOrdering.Ordering :=
               map GetPhotoForKey (mergeList (cleanKeys keys) []) |}).
Proof.
  intros Hcfg Hkeys Hclean. unfold GetOrderedPhotos.
  rewrite Hcfg. cbn [bind]. rewrite Hkeys. cbn [bind].
  destruct (coverKey_nonempty (cleanKeys keys) (AlbumOrderingConfiguration.Cover cfg)
              Hclean) as [key Hkey].
  rewrite Hkey. cbn [bind]. eexists. split; [reflexivity|].
  intros He. destruct e as [err|]; [|now contradiction He].
  rewrite (GetAlbumOrderingConfiguration_error _ _ _ _ _ _ Hcfg) in *. simpl in *.
  destruct (cleanKeys keys) as [|k ks]; [contradiction|].
  unfold coverKey, index in Hkey. simpl in Hkey. injection Hkey as <-.
  reflexivity.
Qed.

(** C9: with an empty key cache slot and a failed listing,
    [GetAllObjectKeys] returns the error of the listing and leaves the album
    as it was: no key list stored, the time of the last refresh untouched. *)
Theorem GetAllObjectKeys_fetch_error
    (objects : list string) (err : error) (clock : Clock) (a : Album) :
  KeyCache a = None ->
  GetAllObjectKeys (objects, Some err) clock a = Done (([], Some err), a).
Proof. intros Hempty. unfold GetAllObjectKeys. now rewrite Hempty. Qed.

(** C10: an album returned by [NewAlbum] or [NewAlbumFromConfig] has a
    non-empty [Path] that ends with the separator: the path given, with a
    separator appended exactly when it did not end with one.  Neither
    constructor panics, and the operations on an album leave [Path] as it
    is. *)
Theorem NewAlbum_Path_canonical :
  (forall path bucketPrefix authUser authPass metaTitle albumTitle album err,
      NewAlbum path bucketPrefix authUser authPass metaTitle albumTitle
      = Done (Some album, err) ->
      Path album <> "" /\ lastByte (Path album) = Some "/"%char
      /\ Path album = (if endsWith path "/" then path else (path ++ "/")%string))
  /\ (forall (IniSection : Type) (MapTo : IniSection -> Album -> Album * option error)
             (section : IniSection) album err,
         NewAlbumFromConfig IniSection MapTo section = Done (Some album, err) ->
         Path album <> "" /\ lastByte (Path album) = Some "/"%char
         /\ Path album
            = (if endsWith (Path (fst (MapTo section (newAlbum "" "" "" "" "" "")))) "/"
               then Path (fst (MapTo section (newAlbum "" "" "" "" "" "")))
               else (Path (fst (MapTo section (newAlbum "" "" "" "" "" ""))) ++ "/")%string))
  /\ (forall path bucketPrefix authUser authPass metaTitle albumTitle,
         NewAlbum path bucketPrefix authUser authPass metaTitle albumTitle <> Panic)
  /\ (forall (IniSection : Type) (MapTo : IniSection -> Album -> Album * option error)
             (section : IniSection),
         NewAlbumFromConfig IniSection MapTo section <> Panic)
  /\ (forall GetAllObjects clock a result a',
         GetAllObjectKeys GetAllObjects clock a = Done (result, a') ->
         Path a' = Path a)
  /\ (forall document clock a result a',
         GetAlbumOrderingConfiguration ResolveReference document clock a
         = Done (result, a') ->
         Path a' = Path a)
  /\ (forall w a result a',
         GetOrderedPhotos ResolveReference Renderable GetPhotoForKey w a
         = Done (result, a') ->
         Path a' = Path a).
Proof.
  assert (Hvalid : forall a r,
             match IsValid a with
             | Some err => Done (None, Some err)
             | None => album' <- Canonicalize a ;; Done (Some album', None)
             end = r ->
             r <> Panic
             /\ forall album err, r = Done (Some album, err) ->
                  Path album <> "" /\ lastByte (Path album) = Some "/"%char
                  /\ Path album = (if endsWith (Path a) "/" then Path a
                                   else (Path a ++ "/")%string)).
  { intros a r <-. destruct (IsValid a) eqn:Hv.
    - split; [discriminate | intros album err [=]].
    - destruct (Canonicalize_Path a (IsValid_Path a Hv)) as [a' [-> [Hlast Heq]]].
      simpl. split; [discriminate|].
      intros album err [= <- <-]. split; [|split]; trivial.
      eapply lastByte_nonempty; eassumption. }
  split; [|split; [|split; [|split; [|split; [|split]]]]].
  - intros path bucketPrefix authUser authPass metaTitle albumTitle album err H.
    now apply (Hvalid _ _ eq_refl) in H.
  - intros IniSection MapTo section album err H. unfold NewAlbumFromConfig in H.
    destruct (MapTo section _) as [a0 [e|]]; [discriminate H|].
    now apply (Hvalid _ _ eq_refl) in H.
  - intros path bucketPrefix authUser authPass metaTitle albumTitle.
    apply (Hvalid _ _ eq_refl).
  - intros IniSection MapTo section. unfold NewAlbumFromConfig.
    destruct (MapTo section _) as [a0 [e|]]; [discriminate|].
    apply (Hvalid _ _ eq_refl).
  - intros. eapply GetAllObjectKeys_Path; eassumption.
  - intros. eapply GetAlbumOrderingConfiguration_Path; eassumption.
  - intros. eapply GetOrderedPhotos_Path; eassumption.
Qed.

End AlbumFacts.

(** ** The theorems at work on the scenarios *)

Section ScenarioFacts.
Import Scenarios.

Example GetOrderedPhotos_configured :
  option_map fst
    (match GetOrderedPhotos joinReference string showKey fivePhotos configured with
     | Done r => Some r
     | Panic => None
     end)
  = Some ({| AlbumOrdering.Cover := Some "c.jpg";
             AlbumOrdering.Thumbnails := ["b.jpg"; "a.jpg"; "c.jpg"; "d.jpg"];
             AlbumOrdering.Ordering := ["d.jpg"; "a.jpg"; "b.jpg"; "c.jpg"] |},
          None).
Proof. reflexivity. Qed.

(** The failing input of C6, through [GetOrderedPhotos]: the only photo is
    both the cover and the only thumbnail. *)
Example GetOrderedPhotos_one_photo :
  option_map (fun r => (AlbumOrdering.Cover (fst (fst r)),
                        AlbumOrdering.Thumbnails (fst (fst r))))
    (match GetOrderedPhotos joinReference string showKey onePhoto album0 with
     | Done r => Some r
     | Panic => None
     end)
  = Some (Some "album/a.jpg", ["album/a.jpg"]).
Proof. reflexivity. Qed.

Lemma GetOrderedPhotos_empty_album_witness :
  GetOrderedPhotos joinReference string showKey onlyOrderingFile album0 = Panic.
Proof.
  eapply (GetOrderedPhotos_empty_album joinReference string showKey
            onlyOrderingFile album0).
  - intros result a1 H. vm_compute in H. injection H as <- <-. reflexivity.
  - reflexivity.
Defined.

Lemma preprocess_appends_resolved_keys_witness :
  GetAlbumOrderingConfigurationFromS3AndPreprocess joinReference
    (Unmarshalled "" ["a.jpg"] [] None) album0
  = Done ({| AlbumOrderingConfiguration.Cover := "";
             AlbumOrderingConfiguration.Thumbnails := ["a.jpg"; "/album/a.jpg"];
             AlbumOrderingConfiguration.Ordering := [];
             AlbumOrderingConfiguration.negativeCacheThis := false |}, None).
Proof.
  apply (proj1 (preprocess_appends_resolved_keys joinReference "" ["a.jpg"] [] album0)
           (fun key => ("/album/" ++ key)%string)).
  intros key [<- | []]. reflexivity.
Defined.

Lemma GetOrderedPhotos_unresolvable_key_witness :
  GetOrderedPhotos joinReference string showKey unresolvableCover album0 = Panic.
Proof.
  apply (GetOrderedPhotos_unresolvable_key joinReference string showKey
           unresolvableCover album0 "%zz.jpg" [] [] "%zz.jpg");
    [left; reflexivity | reflexivity | left; reflexivity | reflexivity].
Defined.

Lemma GetOrderedPhotos_after_retrieval_witness :
  exists albumOrdering,
    GetOrderedPhotos joinReference string showKey brokenOrdering album0
    = Done ((albumOrdering, None),
            storeKeys album0 ["album/a.jpg"; "album/b.jpg"] 1001)
    /\ AlbumOrdering.Ordering albumOrdering = ["album/a.jpg"; "album/b.jpg"].
Proof.
  destruct (GetOrderedPhotos_after_retrieval joinReference string showKey
              brokenOrdering album0 album0
              (storeKeys album0 ["album/a.jpg"; "album/b.jpg"] 1001)
              ["album/a.jpg"; "album/b.jpg"] AlbumOrderingConfiguration.zero
              (Some (RequestFailure 500 "InternalError")) eq_refl eq_refl)
    as [albumOrdering [Hrun Hzero]].
  - discriminate.
  - exists albumOrdering. split; [exact Hrun|].
    rewrite Hzero by discriminate. reflexivity.
Defined.

Lemma GetAllObjectKeys_fetch_error_witness :
  GetAllObjectKeys ([], Some (OtherError "RequestError: send request failed"))
    noon album0
  = Done (([], Some (OtherError "RequestError: send request failed")), album0).
Proof. now apply (GetAllObjectKeys_fetch_error [] _ noon album0). Defined.

Lemma NewAlbum_Path_canonical_witness :
  exists album,
    NewAlbum "/album" "album/" "" "" "" "" = Done (Some album, None)
    /\ Path album = "/album/".
Proof.
  eexists. split; [reflexivity|].
  now apply (proj1 (NewAlbum_Path_canonical joinReference string showKey)
               "/album" "album/" "" "" "" "" _ None eq_refl).
Defined.

End ScenarioFacts.

(** * Further properties of the code *)

From Stdlib Require Import Permutation.

(** ** PathMerge *)

Section MergeFacts.

Lemma mergeList_in_bucket (A P : list string) (x : string) :
  In x (mergeList A P) -> containsPath A x = true.
Proof.
  rewrite mergeList_parts. intros Hx.
  apply in_app_or in Hx. destruct Hx as [Hx | Hx].
  - now apply filter_In in Hx.
  - apply containsPath_In. eapply Subseq_In; [apply fresh_Subseq | exact Hx].
Qed.

Lemma fresh_nothing (seen keys : list string) :
  (forall k, In k keys -> containsPath seen k = true) -> fresh seen keys = [].
Proof.
  induction keys as [|k ks IH]; simpl; intros H; [reflexivity|].
  rewrite (H k (or_introl eq_refl)). apply IH. intros k' Hk'. apply H. now right.
Qed.

Lemma mergeList_lookup (A P : list string) (key : string) :
  containsPath (mergeList A P) key = containsPath A key.
Proof.
  destruct (containsPath A key) eqn:HA.
  - apply containsPath_true in HA. destruct HA as [a [Ha Heq]].
    rewrite <- (containsPath_stripped _ a key Heq).
    rewrite mergeList_parts. now apply fresh_covers.
  - apply containsPath_false. intros x Hx Heq.
    apply mergeList_in_bucket in Hx.
    rewrite (containsPath_stripped A x key Heq) in Hx. congruence.
Qed.

(** The merged list holds the keys of the authoritative list and no other,
    up to leading separators: looking a key up in [mergeList A P] or in [A]
    gives the same answer, whatever [P] is. *)
Theorem mergeList_same_keys (A P : list string) (key : string) :
  containsPath (mergeList A P) key = containsPath A key.
Proof. apply mergeList_lookup. Qed.

(** Merging again with the merged list as preference changes nothing, and
    so does preferring the authoritative list itself. *)
Theorem mergeList_idempotent (A P : list string) :
  mergeList A (mergeList A P) = mergeList A P
  /\ mergeList A A = A.
Proof.
  split.
  - rewrite (mergeList_parts A (mergeList A P)).
    rewrite (filter_every (containsPath A) (mergeList A P))
      by apply mergeList_in_bucket.
    rewrite fresh_nothing; [apply app_nil_r|].
    intros k Hk. rewrite mergeList_lookup. now apply containsPath_In.
  - rewrite mergeList_parts.
    rewrite (filter_every (containsPath A) A) by apply containsPath_In.
    rewrite fresh_nothing; [apply app_nil_r | apply containsPath_In].
Qed.

Lemma mergeList_distinctKeys (A P : list string) :
  distinctKeys P -> distinctKeys (mergeList A P).
Proof.
  intros HP. rewrite mergeList_parts.
  unfold distinctKeys. rewrite map_app. apply NoDup_app.
  - now apply filter_distinct.
  - apply fresh_distinct.
  - intros k Hk Hk'. apply in_map_iff in Hk'. destruct Hk' as [y [<- Hy]].
    apply fresh_unseen in Hy.
    apply containsPath_map_stripped in Hk. congruence.
Qed.

Lemma Subseq_length (l m : list string) :
  Subseq l m -> List.length l <= List.length m.
Proof. induction 1; simpl; lia. Qed.

(** When neither list repeats a key, the merged list is a reordering of the
    authoritative list (keys taken up to leading separators) and has its
    length; in every case it is no longer than the two lists together. *)
Theorem mergeList_permutation (A P : list string) :
  List.length (mergeList A P) <= List.length P + List.length A
  /\ (distinctKeys A -> distinctKeys P ->
      Permutation (map stripped (mergeList A P)) (map stripped A)
      /\ List.length (mergeList A P) = List.length A).
Proof.
  split.
  - rewrite mergeList_parts, length_app.
    pose proof (filter_length_le (containsPath A) P).
    pose proof (Subseq_length _ _ (fresh_Subseq (filter (containsPath A) P) A)).
    lia.
  - intros HA HP.
    assert (Hperm : Permutation (map stripped (mergeList A P)) (map stripped A)).
    { apply NoDup_Permutation; [now apply mergeList_distinctKeys | exact HA |].
      intros k. split; intros Hk; apply in_map_iff in Hk;
        destruct Hk as [x [<- Hx]]; apply containsPath_map_stripped.
      - rewrite <- (mergeList_lookup A P). now apply containsPath_In.
      - rewrite (mergeList_lookup A P). now apply containsPath_In. }
    split; [exact Hperm|].
    apply Permutation_length in Hperm. now rewrite !length_map in Hperm.
Qed.

Lemma mergeList_permutation_witness :
  List.length (mergeList ["a.jpg"; "b.jpg"; "c.jpg"] ["/c.jpg"; "x.jpg"]) = 3.
Proof.
  apply (proj2 (mergeList_permutation ["a.jpg"; "b.jpg"; "c.jpg"] ["/c.jpg"; "x.jpg"]));
    unfold distinctKeys; simpl; repeat constructor; simpl; intuition discriminate.
Defined.

End MergeFacts.

(** ** Construction and credentials *)

Section ConstructionFacts.

(** [NewAlbum] returns an album exactly when the path is not empty and one of
    the two credentials is: it sets [InIndex], and an album of the index may
    not have credentials of its own.  The album returned has the fields
    given, the path with its separator; otherwise an error and no album. *)
Theorem NewAlbum_accepts
    (path bucketPrefix authUser authPass metaTitle albumTitle : string) :
  (path <> "" -> authUser = "" \/ authPass = "" ->
   NewAlbum path bucketPrefix authUser authPass metaTitle albumTitle
   = Done (Some (newAlbum (if endsWith path "/" then path else (path ++ "/")%string)
                   bucketPrefix authUser authPass metaTitle albumTitle), None))
  /\ (path = "" \/ (authUser <> "" /\ authPass <> "") ->
      exists err,
        NewAlbum path bucketPrefix authUser authPass metaTitle albumTitle
        = Done (None, Some err)).
Proof.
  unfold NewAlbum, IsValid, HasOwnAuth, nonEmpty. cbn [Path InIndex AuthUser AuthPass newAlbum].
  split.
  - intros Hpath Hauth.
    destruct (String.eqb_spec path ""); [contradiction|].
    assert (Hno : (true && (negb (authUser =? "")%string && negb (authPass =? "")%string))
                  = false).
    { destruct Hauth as [-> | ->]; [reflexivity|].
      destruct (authUser =? "")%string; reflexivity. }
    rewrite Hno. unfold Canonicalize, endsWith. cbn [Path newAlbum].
    destruct (lastByte path) as [c|] eqn:Hlast.
    + destruct (Ascii.eqb c "/"); reflexivity.
    + now apply lastByte_None in Hlast.
  - intros [-> | [Hu Hp]]; [eexists; reflexivity|].
    destruct (String.eqb_spec path ""); [eexists; reflexivity|].
    destruct (String.eqb_spec authUser ""); [contradiction|].
    destruct (String.eqb_spec authPass ""); [contradiction|].
    eexists; reflexivity.
Qed.

Lemma NewAlbum_accepts_witness :
  NewAlbum "/album" "album/" "guest" "" "Title" "Album"
  = Done (Some (newAlbum "/album/" "album/" "guest" "" "Title" "Album"), None).
Proof.
  apply (proj1 (NewAlbum_accepts "/album" "album/" "guest" "" "Title" "Album"));
    [discriminate | now right].
Defined.

(** [Canonicalize] is idempotent: on the album it returns, it returns that
    album again. *)
Theorem Canonicalize_idempotent (a a' : Album) :
  Canonicalize a = Done a' -> Canonicalize a' = Done a'.
Proof.
  unfold Canonicalize.
  destruct (lastByte (Path a)) as [c|] eqn:Hlast; [|discriminate].
  destruct (Ascii.eqb c "/") eqn:Hc; simpl; intros [= <-].
  - now rewrite Hlast, Hc.
  - cbn [Path withPath]. now rewrite lastByte_app_separator.
Qed.

Lemma Canonicalize_idempotent_witness :
  Canonicalize (newAlbum "/album/" "album/" "" "" "" "")
  = Done (newAlbum "/album/" "album/" "" "" "" "").
Proof.
  now apply (Canonicalize_idempotent (newAlbum "/album" "album/" "" "" "" "")).
Defined.

(** The credentials of an album: its own when it has both; the site's when
    it has neither, and then it has authentication exactly when the site
    has. *)
Theorem album_credentials (site : Site.t) (a : Album) :
  (HasOwnAuth a = true ->
   GetAuthUser site a = AuthUser a /\ GetAuthPass site a = AuthPass a
   /\ forall siteHasAuth, HasAuth siteHasAuth a = true)
  /\ (AuthUser a = "" -> AuthPass a = "" ->
      GetAuthUser site a = Site.AuthUser site
      /\ GetAuthPass site a = Site.AuthPass site
      /\ forall siteHasAuth, HasAuth siteHasAuth a = siteHasAuth).
Proof.
  unfold HasAuth, HasOwnAuth, GetAuthUser, GetAuthPass. split.
  - intros H. apply andb_true_iff in H. destruct H as [-> ->].
    repeat split. intros b. apply orb_true_r.
  - intros -> ->. repeat split. intros b. apply orb_false_r.
Qed.

Lemma album_credentials_witness :
  GetAuthUser {| Site.AuthUser := "site"; Site.AuthPass := "secret" |}
    (newAlbum "/a/" "a/" "me" "mine" "" "") = "me".
Proof.
  now apply (proj1 (album_credentials {| Site.AuthUser := "site"; Site.AuthPass := "secret" |}
                      (newAlbum "/a/" "a/" "me" "mine" "" ""))).
Defined.

End ConstructionFacts.

(** ** Staleness *)

Section ClockFacts.

Lemma Sub_past_interval (now last : Z) :
  (CACHE_INTERVAL <? Time.Sub now last)%Z = (last + 3600000000000 <? now)%Z.
Proof.
  unfold CACHE_INTERVAL, Time.Sub, Time.Hour, Time.minDuration, Time.maxDuration.
  change (2 ^ 63)%Z with 9223372036854775808%Z.
  destruct (Z.ltb_spec (last + 3600000000000) now);
    destruct (Z.ltb_spec (1 * (3600 * 1000000000))
                (Z.max (- 9223372036854775808)
                   (Z.min (9223372036854775808 - 1) (now - last)))); lia.
Qed.

(** A cache is due for a refresh exactly when more than an hour
    (3 600 000 000 000 ns) lies between its last refresh and now: the
    saturation of the difference to the range of a duration plays no part,
    and a clock that ran backwards never makes a refresh due. *)
Theorem Needs_update_after_an_hour (now : Z) (a : Album) :
  (NeedsKeyCacheUpdate now a = true
   <-> (LastKeyCacheUpdate a + 3600000000000 < now)%Z)
  /\ (NeedsOrderingCacheUpdate now a = true
      <-> (LastOrderingCacheUpdate a + 3600000000000 < now)%Z).
Proof.
  unfold NeedsKeyCacheUpdate, NeedsOrderingCacheUpdate.
  rewrite !Sub_past_interval, !Z.ltb_lt. tauto.
Qed.

End ClockFacts.

(** ** Listing and cleaning of keys *)

Section KeyFacts.

Lemma lastByte_Some (s : string) : s <> "" -> exists c, lastByte s = Some c.
Proof.
  intros Hne. destruct (lastByte s) as [c|] eqn:H; [now exists c|].
  now apply lastByte_None in H.
Qed.

Lemma dropFolders_keys (objects imageKeys : list string) :
  Forall (fun key => key <> "") objects ->
  dropFolders objects imageKeys
  = Done (imageKeys ++ filter (fun key => negb (endsWith key "/")) objects).
Proof.
  intros Hall. revert imageKeys.
  induction Hall as [|key rest Hkey _ IH]; intros imageKeys; simpl.
  - now rewrite app_nil_r.
  - unfold endsWith. destruct (lastByte_Some key Hkey) as [c ->].
    destruct (Ascii.eqb c "/"); simpl; rewrite IH; [reflexivity|].
    now rewrite <- app_assoc.
Qed.

Lemma dropFolders_empty_key (objects imageKeys : list string) :
  In "" objects -> dropFolders objects imageKeys = Panic.
Proof.
  revert imageKeys.
  induction objects as [|key rest IH]; intros imageKeys; simpl; [tauto|].
  intros [-> | Hin]; [reflexivity|].
  destruct (lastByte key) as [c|]; [|reflexivity].
  destruct (Ascii.eqb c "/"); simpl; now apply IH.
Qed.

(** [GetAllObjectKeysFromBucket] on a successful listing returns, in the
    order listed, the keys that do not end with the separator, when no key
    listed is empty; it panics when an empty key is listed anywhere; on a
    failed listing it returns the error and no key. *)
Theorem GetAllObjectKeysFromBucket_keys (objects : list string) :
  (Forall (fun key => key <> "") objects ->
   GetAllObjectKeysFromBucket (objects, None)
   = Done (filter (fun key => negb (endsWith key "/")) objects, None))
  /\ (In "" objects -> GetAllObjectKeysFromBucket (objects, None) = Panic)
  /\ (forall err, GetAllObjectKeysFromBucket (objects, Some err) = Done ([], Some err)).
Proof.
  unfold GetAllObjectKeysFromBucket. split; [|split].
  - intros Hall. now rewrite (dropFolders_keys objects [] Hall).
  - intros Hin. now rewrite (dropFolders_empty_key objects [] Hin).
  - reflexivity.
Qed.

Lemma GetAllObjectKeysFromBucket_keys_witness :
  GetAllObjectKeysFromBucket (["album/a.jpg"; "album/sub/"; "album/b.jpg"], None)
  = Done (["album/a.jpg"; "album/b.jpg"], None).
Proof.
  apply (proj1 (GetAllObjectKeysFromBucket_keys
                  ["album/a.jpg"; "album/sub/"; "album/b.jpg"])).
  repeat constructor; discriminate.
Defined.

Lemma from_length (p s : string) : from (String.length p) (p ++ s)%string = s.
Proof. induction p as [|c p IH]; [now destruct s | exact IH]. Qed.

Lemma from_split (n : nat) (s : string) :
  exists p, s = (p ++ from n s)%string.
Proof.
  revert s. induction n as [|n IH]; intros s.
  - exists "". now destruct s.
  - destruct s as [|c s]; [now exists ""|].
    destruct (IH s) as [p Hp]. exists (String c p). simpl. now rewrite <- Hp.
Qed.

Lemma append_length (p s : string) :
  String.length (p ++ s)%string = String.length p + String.length s.
Proof. induction p as [|c p IH]; simpl; [reflexivity | now rewrite IH]. Qed.

(** [HasSuffix s suffix] holds exactly when [s] is some string followed by
    [suffix]. *)
Lemma HasSuffix_true (s suffix : string) :
  HasSuffix s suffix = true <-> exists p, s = (p ++ suffix)%string.
Proof.
  unfold HasSuffix. rewrite andb_true_iff, Nat.leb_le, String.eqb_eq. split.
  - intros [_ Heq].
    destruct (from_split (String.length s - String.length suffix) s) as [p Hp].
    exists p. now rewrite Heq in Hp.
  - intros [p ->]. rewrite append_length. split; [lia|].
    replace (String.length p + String.length suffix - String.length suffix)
      with (String.length p) by lia.
    apply from_length.
Qed.

Lemma filter_Subseq (f : string -> bool) (l : list string) : Subseq (filter f l) l.
Proof.
  induction l as [|x l IH]; simpl; [constructor|].
  destruct (f x); now constructor.
Qed.

(** The clean keys are the keys listed, in the order listed, without every
    key that ends with the name of the ordering file: the ordering file of
    the album, and also any other key with that ending. *)
Theorem cleanKeys_without_ordering_file (imageKeys : list string) :
  Subseq (cleanKeys imageKeys) imageKeys
  /\ (forall key,
         In key (cleanKeys imageKeys)
         <-> In key imageKeys
             /\ ~ exists p, key = (p ++ "ordering.yaml")%string).
Proof.
  rewrite cleanKeys_filter. split; [apply filter_Subseq|].
  intros key. rewrite filter_In, negb_true_iff, <- not_true_iff_false.
  unfold ORDERING_YAML_NAME. now rewrite HasSuffix_true.
Qed.

End KeyFacts.

(** ** Cover and thumbnails *)

Section SelectionFacts.

Lemma Subseq_nil_l (l : list string) : Subseq [] l.
Proof. induction l; now constructor. Qed.

Lemma Subseq_refl (l : list string) : Subseq l l.
Proof. induction l; now constructor. Qed.

Lemma firstn_Subseq (n : nat) (l : list string) : Subseq (firstn n l) l.
Proof.
  revert n. induction l as [|x l IH]; intros [|n]; simpl.
  - constructor.
  - constructor.
  - apply Subseq_nil_l.
  - apply Subseq_keep, IH.
Qed.

Lemma skipn_Subseq (n : nat) (l : list string) : Subseq (skipn n l) l.
Proof.
  revert n. induction l as [|x l IH]; intros [|n]; simpl.
  - constructor.
  - constructor.
  - apply Subseq_refl.
  - apply Subseq_skip, IH.
Qed.

Lemma slice_In (l : list string) (lo hi : nat) (x : string) :
  In x (slice l lo hi) -> In x l.
Proof.
  unfold slice. intros H.
  eapply Subseq_In; [apply skipn_Subseq|].
  eapply Subseq_In; [apply firstn_Subseq | exact H].
Qed.

Lemma slice_length (l : list string) (lo hi : nat) :
  List.length (slice l lo hi) <= hi - lo.
Proof. unfold slice. rewrite length_firstn. lia. Qed.

Lemma thumbnailKeys_bounds (cleanImageKeys thumbnails : list string) :
  List.length (thumbnailKeys cleanImageKeys thumbnails) <= 5
  /\ (forall key, In key (thumbnailKeys cleanImageKeys thumbnails) ->
                  containsPath cleanImageKeys key = true).
Proof.
  unfold thumbnailKeys.
  destruct (0 <? List.length thumbnails)%nat.
  - set (merged := mergeList cleanImageKeys thumbnails).
    assert (Hin : forall key, In key merged -> containsPath cleanImageKeys key = true)
      by apply mergeList_in_bucket.
    destruct (Nat.ltb_spec 5 (List.length merged)).
    + split; [apply (slice_length merged 0 5)|].
      intros key Hk. eapply Hin, slice_In, Hk.
    + destruct (0 <? List.length merged)%nat.
      * split; [pose proof (slice_length merged 0 (List.length merged)); lia|].
        intros key Hk. eapply Hin, slice_In, Hk.
      * split; [lia | exact Hin].
  - destruct (Nat.ltb_spec 6 (List.length cleanImageKeys)).
    + split; [apply (slice_length cleanImageKeys 1 6)|].
      intros key Hk. eapply containsPath_In, slice_In, Hk.
    + destruct (Nat.ltb_spec 1 (List.length cleanImageKeys)).
      * split; [pose proof (slice_length cleanImageKeys 1 (List.length cleanImageKeys)); lia|].
        intros key Hk. eapply containsPath_In, slice_In, Hk.
      * split; [lia | apply containsPath_In].
Qed.

(** There are never more than five thumbnail keys, configured or not, and
    each of them is a clean key of the album (up to leading separators). *)
Theorem thumbnailKeys_at_most_five (cleanImageKeys thumbnails : list string) :
  List.length (thumbnailKeys cleanImageKeys thumbnails) <= 5
  /\ (forall key, In key (thumbnailKeys cleanImageKeys thumbnails) ->
                  containsPath cleanImageKeys key = true).
Proof. apply thumbnailKeys_bounds. Qed.

(** The cover key of an album with a clean key: the configured cover when it
    is among the clean keys (up to leading separators), the first clean key
    otherwise; in both cases a key of the album. *)
Theorem coverKey_choice (first : string) (others : list string) (cover : string) :
  exists key,
    coverKey (first :: others) cover = Done key
    /\ containsPath (first :: others) key = true
    /\ key = (if nonEmpty cover && containsPath (first :: others) cover
              then cover else first).
Proof.
  unfold coverKey, index. cbn [nth_error].
  destruct (nonEmpty cover); cbn [andb];
    [destruct (containsPath (first :: others) cover) eqn:Hc|].
  - exists cover. auto.
  - exists first. repeat split. apply containsPath_In. now left.
  - exists first. repeat split. apply containsPath_In. now left.
Qed.

End SelectionFacts.

(** ** KeyCache *)

Section KeyCacheFacts.

Lemma key_cache_fresh (now : Z) (a : Album) :
  (now <= LastKeyCacheUpdate a + 3600000000000)%Z ->
  NeedsKeyCacheUpdate now a = false.
Proof.
  intros H. unfold NeedsKeyCacheUpdate. rewrite Sub_past_interval.
  apply Z.ltb_ge. lia.
Qed.

Lemma key_cache_stale (now : Z) (a : Album) :
  (LastKeyCacheUpdate a + 3600000000000 < now)%Z ->
  NeedsKeyCacheUpdate now a = true.
Proof.
  intros H. unfold NeedsKeyCacheUpdate. rewrite Sub_past_interval.
  now apply Z.ltb_lt.
Qed.

Lemma key_cache_unchanged
    (GetAllObjects : Listing) (clock : Clock) (a : Album) (cached : list string) :
  KeyCache a = Some cached ->
  (checkedAt clock <= LastKeyCacheUpdate a + 3600000000000)%Z
  \/ snd GetAllObjects <> None ->
  GetAllObjectKeys GetAllObjects clock a = Done ((cached, None), a).
Proof.
  intros Hcached Hcase. unfold GetAllObjectKeys. rewrite Hcached.
  destruct Hcase as [Hfresh | Hfailed].
  - now rewrite (key_cache_fresh _ _ Hfresh).
  - destruct (NeedsKeyCacheUpdate (checkedAt clock) a); [|reflexivity].
    destruct GetAllObjects as [objects [err|]]; [reflexivity|].
    now contradiction Hfailed.
Qed.

(** A filled key cache is served as it is and nothing changes in the album,
    whatever the listing of the bucket would give, when the cache is not
    older than an hour, and also when it is older and the listing fails. *)
Theorem GetAllObjectKeys_hit_unchanged
    (GetAllObjects : Listing) (clock : Clock) (a : Album) (cached : list string) :
  KeyCache a = Some cached ->
  (checkedAt clock <= LastKeyCacheUpdate a + 3600000000000)%Z
  \/ snd GetAllObjects <> None ->
  GetAllObjectKeys GetAllObjects clock a = Done ((cached, None), a).
Proof. apply key_cache_unchanged. Qed.

Lemma GetAllObjectKeys_hit_unchanged_witness :
  GetAllObjectKeys ([], Some (OtherError "RequestError: send request failed"))
    {| checkedAt := 9000000000000; storedAt := 9000000000001 |}
    (storeKeys Scenarios.album0 ["album/a.jpg"] 1001)
  = Done ((["album/a.jpg"], None), storeKeys Scenarios.album0 ["album/a.jpg"] 1001).
Proof.
  apply (GetAllObjectKeys_hit_unchanged
           ([], Some (OtherError "RequestError: send request failed"))
           {| checkedAt := 9000000000000; storedAt := 9000000000001 |}
           (storeKeys Scenarios.album0 ["album/a.jpg"] 1001) ["album/a.jpg"]);
    [reflexivity | right; discriminate].
Defined.

(** The first call on an empty key cache with a successful listing returns
    the keys listed without the folders, stores them with the time of the
    store, and every call made within the hour after returns those keys and
    leaves the album as it is, whatever the bucket then holds. *)
Theorem GetAllObjectKeys_first_fetch
    (objects : list string) (clock : Clock) (a : Album) :
  KeyCache a = None ->
  Forall (fun key => key <> "") objects ->
  GetAllObjectKeys (objects, None) clock a
  = Done ((filter (fun key => negb (endsWith key "/")) objects, None),
          storeKeys a (filter (fun key => negb (endsWith key "/")) objects)
            (storedAt clock))
  /\ (forall (later : Listing) (clock' : Clock),
         (checkedAt clock' <= storedAt clock + 3600000000000)%Z ->
         GetAllObjectKeys later clock'
           (storeKeys a (filter (fun key => negb (endsWith key "/")) objects)
              (storedAt clock))
         = Done ((filter (fun key => negb (endsWith key "/")) objects, None),
                 storeKeys a (filter (fun key => negb (endsWith key "/")) objects)
                   (storedAt clock))).
Proof.
  intros Hempty Hall. split.
  - unfold GetAllObjectKeys, GetAllObjectKeysFromBucket.
    rewrite Hempty, (dropFolders_keys objects [] Hall). reflexivity.
  - intros later clock' Hfresh.
    apply key_cache_unchanged; [reflexivity | now left].
Qed.

Lemma GetAllObjectKeys_first_fetch_witness :
  GetAllObjectKeys (["album/a.jpg"; "album/sub/"], None) Scenarios.noon Scenarios.album0
  = Done ((["album/a.jpg"], None), storeKeys Scenarios.album0 ["album/a.jpg"] 1001).
Proof.
  apply (GetAllObjectKeys_first_fetch ["album/a.jpg"; "album/sub/"]
           Scenarios.noon Scenarios.album0);
    [reflexivity | repeat constructor; discriminate].
Defined.

(** A call on a key cache older than an hour, with a successful listing,
    still returns the keys cached before; the keys just listed replace them
    in the cache and are what the next call within the hour returns. *)
Theorem GetAllObjectKeys_stale_refresh
    (objects cached : list string) (clock : Clock) (a : Album) :
  KeyCache a = Some cached ->
  (LastKeyCacheUpdate a + 3600000000000 < checkedAt clock)%Z ->
  Forall (fun key => key <> "") objects ->
  GetAllObjectKeys (objects, None) clock a
  = Done ((cached, None),
          storeKeys a (filter (fun key => negb (endsWith key "/")) objects)
            (storedAt clock))
  /\ (forall (later : Listing) (clock' : Clock),
         (checkedAt clock' <= storedAt clock + 3600000000000)%Z ->
         GetAllObjectKeys later clock'
           (storeKeys a (filter (fun key => negb (endsWith key "/")) objects)
              (storedAt clock))
         = Done ((filter (fun key => negb (endsWith key "/")) objects, None),
                 storeKeys a (filter (fun key => negb (endsWith key "/")) objects)
                   (storedAt clock))).
Proof.
  intros Hcached Hstale Hall. split.
  - unfold GetAllObjectKeys, GetAllObjectKeysFromBucket.
    rewrite Hcached, (key_cache_stale _ _ Hstale), (dropFolders_keys objects [] Hall).
    reflexivity.
  - intros later clock' Hfresh.
    apply key_cache_unchanged; [reflexivity | now left].
Qed.

Lemma GetAllObjectKeys_stale_refresh_witness :
  GetAllObjectKeys (["album/b.jpg"], None)
    {| checkedAt := 9000000000000; storedAt := 9000000000001 |}
    (storeKeys Scenarios.album0 ["album/a.jpg"] 1001)
  = Done ((["album/a.jpg"], None),
          storeKeys (storeKeys Scenarios.album0 ["album/a.jpg"] 1001)
            ["album/b.jpg"] 9000000000001).
Proof.
  apply (GetAllObjectKeys_stale_refresh ["album/b.jpg"] ["album/a.jpg"]
           {| checkedAt := 9000000000000; storedAt := 9000000000001 |}
           (storeKeys Scenarios.album0 ["album/a.jpg"] 1001));
    [reflexivity | reflexivity | repeat constructor; discriminate].
Defined.

End KeyCacheFacts.

(** ** OrderingCache *)

Section OrderingCacheFacts.
Variable ResolveReference : string -> string -> outcome string.

Lemma ordering_cache_fresh (now : Z) (a : Album) :
  (now <= LastOrderingCacheUpdate a + 3600000000000)%Z ->
  NeedsOrderingCacheUpdate now a = false.
Proof.
  intros H. unfold NeedsOrderingCacheUpdate. rewrite Sub_past_interval.
  apply Z.ltb_ge. lia.
Qed.

(** A failure that is not cached: no S3 service, or a failed [GetObject]
    other than a 404. *)
Lemma hard_failure_not_cached (document : OrderingDocument) (err : error) (a : Album) :
  document = NoService err
  \/ (document = GetObjectFailed err /\ isNotFound err = false) ->
  GetAlbumOrderingConfigurationFromS3AndPreprocess ResolveReference document a
  = Done (AlbumOrderingConfiguration.zero, Some err).
Proof.
  intros [-> | [-> Hnot]]; simpl; [reflexivity | now rewrite Hnot].
Qed.

Lemma ordering_cache_unchanged
    (document : OrderingDocument) (clock : Clock) (a : Album)
    (cached : AlbumOrderingConfiguration.t) (err : error) :
  OrderingCache a = Some cached ->
  (checkedAt clock <= LastOrderingCacheUpdate a + 3600000000000)%Z
  \/ document = NoService err
  \/ (document = GetObjectFailed err /\ isNotFound err = false) ->
  GetAlbumOrderingConfiguration ResolveReference document clock a
  = Done ((cached, None), a).
Proof.
  intros Hcached Hcase. unfold GetAlbumOrderingConfiguration. rewrite Hcached.
  destruct Hcase as [Hfresh | Hfailed].
  - now rewrite (ordering_cache_fresh _ _ Hfresh).
  - destruct (NeedsOrderingCacheUpdate (checkedAt clock) a); [|reflexivity].
    now rewrite (hard_failure_not_cached document err a Hfailed).
Qed.

(** A filled ordering cache is served as it is and nothing changes in the
    album when the cache is not older than an hour, whatever the document
    then is, and also when it is older and the retrieval fails for lack of
    the service or with a failure other than a 404. *)
Theorem GetAlbumOrderingConfiguration_hit_unchanged
    (document : OrderingDocument) (clock : Clock) (a : Album)
    (cached : AlbumOrderingConfiguration.t) (err : error) :
  OrderingCache a = Some cached ->
  (checkedAt clock <= LastOrderingCacheUpdate a + 3600000000000)%Z
  \/ document = NoService err
  \/ (document = GetObjectFailed err /\ isNotFound err = false) ->
  GetAlbumOrderingConfiguration ResolveReference document clock a
  = Done ((cached, None), a).
Proof. apply ordering_cache_unchanged. Qed.

(** On an empty ordering cache, a retrieval that fails for lack of the
    service or with a failure other than a 404 gives the caller the error
    and the empty configuration, and the album does not change: nothing is
    cached, the next call retrieves again. *)
Theorem GetAlbumOrderingConfiguration_failure_not_cached
    (document : OrderingDocument) (clock : Clock) (a : Album) (err : error) :
  OrderingCache a = None ->
  document = NoService err
  \/ (document = GetObjectFailed err /\ isNotFound err = false) ->
  GetAlbumOrderingConfiguration ResolveReference document clock a
  = Done ((AlbumOrderingConfiguration.zero, Some err), a).
Proof.
  intros Hempty Hfailed. unfold GetAlbumOrderingConfiguration.
  now rewrite Hempty, (hard_failure_not_cached document err a Hfailed).
Qed.

(** On an empty ordering cache, a 404 gives the caller the error and the
    empty configuration, and the cache gets the empty configuration marked
    negative; every call within the hour after returns it with no error and
    retrieves nothing, whatever the bucket then holds. *)
Theorem GetAlbumOrderingConfiguration_negative_cache
    (clock : Clock) (a : Album) (err : error) :
  OrderingCache a = None ->
  isNotFound err = true ->
  GetAlbumOrderingConfiguration ResolveReference (GetObjectFailed err) clock a
  = Done ((AlbumOrderingConfiguration.zero, Some err),
          storeOrdering a
            (AlbumOrderingConfiguration.withNegativeCacheThis
               AlbumOrderingConfiguration.zero true) (storedAt clock))
  /\ (forall (later : OrderingDocument) (clock' : Clock),
         (checkedAt clock' <= storedAt clock + 3600000000000)%Z ->
         GetAlbumOrderingConfiguration ResolveReference later clock'
           (storeOrdering a
              (AlbumOrderingConfiguration.withNegativeCacheThis
                 AlbumOrderingConfiguration.zero true) (storedAt clock))
         = Done ((AlbumOrderingConfiguration.withNegativeCacheThis
                    AlbumOrderingConfiguration.zero true, None),
                 storeOrdering a
                   (AlbumOrderingConfiguration.withNegativeCacheThis
                      AlbumOrderingConfiguration.zero true) (storedAt clock))).
Proof.
  intros Hempty H404. split.
  - unfold GetAlbumOrderingConfiguration. rewrite Hempty. simpl. now rewrite H404.
  - intros later clock' Hfresh.
    apply (ordering_cache_unchanged later clock' _ _ err);
      [reflexivity | now left].
Qed.

(** On an empty ordering cache, a document that does not parse gives the
    caller the error and the empty configuration, but the cache gets what
    the parser left of the document, marked negative; every call within the
    hour after returns those fields, not the empty configuration, and no
    error. *)
Theorem GetAlbumOrderingConfiguration_malformed
    (cover : string) (thumbnails ordering : list string) (err : error)
    (clock : Clock) (a : Album) :
  OrderingCache a = None ->
  GetAlbumOrderingConfiguration ResolveReference
    (Unmarshalled cover thumbnails ordering (Some err)) clock a
  = Done ((AlbumOrderingConfiguration.zero, Some err),
          storeOrdering a
            {| AlbumOrderingConfiguration.Cover := cover;
               AlbumOrderingConfiguration.Thumbnails := thumbnails;
               AlbumOrderingConfiguration.Ordering := ordering;
               AlbumOrderingConfiguration.negativeCacheThis := true |}
            (storedAt clock))
  /\ (forall (later : OrderingDocument) (clock' : Clock),
         (checkedAt clock' <= storedAt clock + 3600000000000)%Z ->
         GetAlbumOrderingConfiguration ResolveReference later clock'
           (storeOrdering a
              {| AlbumOrderingConfiguration.Cover := cover;
                 AlbumOrderingConfiguration.Thumbnails := thumbnails;
                 AlbumOrderingConfiguration.Ordering := ordering;
                 AlbumOrderingConfiguration.negativeCacheThis := true |}
              (storedAt clock))
         = Done (({| AlbumOrderingConfiguration.Cover := cover;
                     AlbumOrderingConfiguration.Thumbnails := thumbnails;
                     AlbumOrderingConfiguration.Ordering := ordering;
                     AlbumOrderingConfiguration.negativeCacheThis := true |}, None),
                 storeOrdering a
                   {| AlbumOrderingConfiguration.Cover := cover;
                      AlbumOrderingConfiguration.Thumbnails := thumbnails;
                      AlbumOrderingConfiguration.Ordering := ordering;
                      AlbumOrderingConfiguration.negativeCacheThis := true |}
                   (storedAt clock))).
Proof.
  intros Hempty. split.
  - unfold GetAlbumOrderingConfiguration. now rewrite Hempty.
  - intros later clock' Hfresh.
    apply (ordering_cache_unchanged later clock' _ _ err);
      [reflexivity | now left].
Qed.

(** On an empty ordering cache, a document that parses and whose
    preprocessing returns a configuration has that configuration returned
    with no error and stored, and every call within the hour after returns
    it and retrieves nothing; a document that parses and holds a key that
    does not resolve makes the call panic. *)
Theorem GetAlbumOrderingConfiguration_first_fetch
    (cover : string) (thumbnails ordering : list string)
    (clock : Clock) (a : Album) :
  OrderingCache a = None ->
  (forall cfg,
      GetAlbumOrderingConfigurationFromS3AndPreprocess ResolveReference
        (Unmarshalled cover thumbnails ordering None) a = Done (cfg, None) ->
      GetAlbumOrderingConfiguration ResolveReference
        (Unmarshalled cover thumbnails ordering None) clock a
      = Done ((cfg, None), storeOrdering a cfg (storedAt clock))
      /\ (forall (later : OrderingDocument) (clock' : Clock),
             (checkedAt clock' <= storedAt clock + 3600000000000)%Z ->
             GetAlbumOrderingConfiguration ResolveReference later clock'
               (storeOrdering a cfg (storedAt clock))
             = Done ((cfg, None), storeOrdering a cfg (storedAt clock))))
  /\ (forall key,
         In key (configuredKeys cover thumbnails ordering) ->
         ResolveReference (Path a) key = Panic ->
         GetAlbumOrderingConfiguration ResolveReference
           (Unmarshalled cover thumbnails ordering None) clock a = Panic).
Proof.
  intros Hempty. split.
  - intros cfg Hpre. split.
    + unfold GetAlbumOrderingConfiguration. now rewrite Hempty, Hpre.
    + intros later clock' Hfresh.
      apply (ordering_cache_unchanged later clock' _ _ (OtherError ""));
        [reflexivity | now left].
  - intros key Hin Hkey. unfold GetAlbumOrderingConfiguration.
    now rewrite Hempty, (preprocess_Panic ResolveReference _ _ _ _ key Hin Hkey).
Qed.

End OrderingCacheFacts.

Section OrderingCacheWitnesses.
Import Scenarios.

Lemma GetAlbumOrderingConfiguration_hit_unchanged_witness :
  GetAlbumOrderingConfiguration joinReference
    (GetObjectFailed (RequestFailure 500 "InternalError"))
    {| checkedAt := 9000000000000; storedAt := 9000000000001 |} configured
  = Done (({| AlbumOrderingConfiguration.Cover := "c.jpg";
              AlbumOrderingConfiguration.Thumbnails := ["b.jpg"];
              AlbumOrderingConfiguration.Ordering := ["d.jpg"];
              AlbumOrderingConfiguration.negativeCacheThis := false |}, None),
          configured).
Proof.
  apply (GetAlbumOrderingConfiguration_hit_unchanged joinReference
           (GetObjectFailed (RequestFailure 500 "InternalError"))
           {| checkedAt := 9000000000000; storedAt := 9000000000001 |}
           configured _ (RequestFailure 500 "InternalError"));
    [reflexivity | right; right; split; reflexivity].
Defined.

Lemma GetAlbumOrderingConfiguration_failure_not_cached_witness :
  GetAlbumOrderingConfiguration joinReference
    (GetObjectFailed (RequestFailure 500 "InternalError")) noon album0
  = Done ((AlbumOrderingConfiguration.zero,
           Some (RequestFailure 500 "InternalError")), album0).
Proof.
  apply (GetAlbumOrderingConfiguration_failure_not_cached joinReference
           (GetObjectFailed (RequestFailure 500 "InternalError")) noon album0
           (RequestFailure 500 "InternalError"));
    [reflexivity | right; split; reflexivity].
Defined.

Lemma GetAlbumOrderingConfiguration_negative_cache_witness :
  GetAlbumOrderingConfiguration joinReference
    (GetObjectFailed (RequestFailure 404 "NoSuchKey")) noon album0
  = Done ((AlbumOrderingConfiguration.zero, Some (RequestFailure 404 "NoSuchKey")),
          storeOrdering album0
            (AlbumOrderingConfiguration.withNegativeCacheThis
               AlbumOrderingConfiguration.zero true) 1001).
Proof.
  exact (proj1 (GetAlbumOrderingConfiguration_negative_cache joinReference
                  noon album0 (RequestFailure 404 "NoSuchKey") eq_refl eq_refl)).
Defined.

Lemma GetAlbumOrderingConfiguration_malformed_witness :
  GetAlbumOrderingConfiguration joinReference
    (Unmarshalled "c.jpg" [] [] (Some (OtherError "yaml: line 2"))) noon album0
  = Done ((AlbumOrderingConfiguration.zero, Some (OtherError "yaml: line 2")),
          storeOrdering album0
            {| AlbumOrderingConfiguration.Cover := "c.jpg";
               AlbumOrderingConfiguration.Thumbnails := [];
               AlbumOrderingConfiguration.Ordering := [];
               AlbumOrderingConfiguration.negativeCacheThis := true |} 1001).
Proof.
  exact (proj1 (GetAlbumOrderingConfiguration_malformed joinReference
                  "c.jpg" [] [] (OtherError "yaml: line 2") noon album0 eq_refl)).
Defined.

Lemma GetAlbumOrderingConfiguration_first_fetch_witness :
  GetAlbumOrderingConfiguration joinReference
    (Unmarshalled "c.jpg" ["b.jpg"] [] None) noon album0
  = Done (({| AlbumOrderingConfiguration.Cover := "/album/c.jpg";
              AlbumOrderingConfiguration.Thumbnails := ["b.jpg"; "/album/b.jpg"];
              AlbumOrderingConfiguration.Ordering := [];
              AlbumOrderingConfiguration.negativeCacheThis := false |}, None),
          storeOrdering album0
            {| AlbumOrderingConfiguration.Cover := "/album/c.jpg";
               AlbumOrderingConfiguration.Thumbnails := ["b.jpg"; "/album/b.jpg"];
               AlbumOrderingConfiguration.Ordering := [];
               AlbumOrderingConfiguration.negativeCacheThis := false |} 1001).
Proof.
  exact (proj1 (proj1 (GetAlbumOrderingConfiguration_first_fetch joinReference
                         "c.jpg" ["b.jpg"] [] noon album0 eq_refl) _ eq_refl)).
Defined.

End OrderingCacheWitnesses.

(** ** OrderingResolver and its callers *)

Section ResolverFacts.
Variable ResolveReference : string -> string -> outcome string.
Variable Renderable : Type.
Variable GetPhotoForKey : string -> Renderable.

Lemma GetAllObjectKeys_state
    (GetAllObjects : Listing) (clock : Clock) (a a' : Album)
    (result : list string * option error) :
  GetAllObjectKeys GetAllObjects clock a = Done (result, a') ->
  a' = a \/ (exists keys, a' = storeKeys a keys (storedAt clock)).
Proof.
  unfold GetAllObjectKeys.
  destruct (KeyCache a); [destruct (NeedsKeyCacheUpdate _ a)|];
    try (intros [= <- <-]; now left);
    (destruct (GetAllObjectKeysFromBucket GetAllObjects) as [[keys [e|]]|]; simpl;
     [intros [= <- <-]; now left
     | intros [= <- <-]; right; eexists; reflexivity
     | discriminate]).
Qed.


Lemma ordering_step_keeps_keys
    (document : OrderingDocument) (clock : Clock) (a a1 : Album)
    (result : AlbumOrderingConfiguration.t * option error) :
  GetAlbumOrderingConfiguration ResolveReference document clock a = Done (result, a1) ->
  KeyCache a1 = KeyCache a.
Proof.
  intros H. apply GetAlbumOrderingConfiguration_state in H.
  destruct H as [-> | [o ->]]; reflexivity.
Qed.


(** [GetOrderedPhotos] changes nothing of an album but its two caches and
    their time stamps, and never empties a cache that holds a value. *)
Theorem GetOrderedPhotos_frame (w : World) (a a' : Album)
    (result : AlbumOrdering.t Renderable * option error) :
  GetOrderedPhotos ResolveReference Renderable GetPhotoForKey w a = Done (result, a') ->
  (BucketPrefix a' = BucketPrefix a /\ AuthUser a' = AuthUser a
   /\ AuthPass a' = AuthPass a /\ MetaTitle a' = MetaTitle a
   /\ AlbumTitle a' = AlbumTitle a /\ InIndex a' = InIndex a)
  /\ (KeyCache a <> None -> KeyCache a' <> None)
  /\ (OrderingCache a <> None -> OrderingCache a' <> None).
Proof.
  unfold GetOrderedPhotos.
  destruct (GetAlbumOrderingConfiguration _ _ _ a) as [[[cfg e] a1]|] eqn:H1;
    simpl; [|discriminate].
  apply GetAlbumOrderingConfiguration_state in H1.
  destruct (GetAllObjectKeys (listing w) (keyClock w) a1)
    as [[[keys err] a2]|] eqn:H2; simpl; [|discriminate].
  apply GetAllObjectKeys_state in H2.
  assert (Hframe :
            (BucketPrefix a2 = BucketPrefix a /\ AuthUser a2 = AuthUser a
             /\ AuthPass a2 = AuthPass a /\ MetaTitle a2 = MetaTitle a
             /\ AlbumTitle a2 = AlbumTitle a /\ InIndex a2 = InIndex a)
            /\ (KeyCache a <> None -> KeyCache a2 <> None)
            /\ (OrderingCache a <> None -> OrderingCache a2 <> None)).
  { destruct H1 as [-> | [o ->]]; destruct H2 as [-> | [ks ->]]; simpl;
      repeat split; trivial; discriminate. }
  destruct err; [now intros [= <- <-]|].
  destruct (coverKey _ _); simpl; [|discriminate].
  now intros [= <- <-].
Qed.

(** With an empty key cache and a failed listing, when the retrieval of the
    ordering document returns, [GetOrderedPhotos] returns the error of the
    listing with the empty ordering, and the key cache stays empty;
    [GetCoverPhoto] returns the error with no cover, and the two functions
    for templates return no cover and no thumbnail, and no sign of the
    failure. *)
Theorem GetOrderedPhotos_listing_failed
    (w : World) (a a1 : Album) (objects : list string) (err : error)
    (retrieved : AlbumOrderingConfiguration.t * option error) :
  KeyCache a = None ->
  listing w = (objects, Some err) ->
  GetAlbumOrderingConfiguration ResolveReference (document w) (orderingClock w) a
  = Done (retrieved, a1) ->
  KeyCache a1 = None
  /\ GetOrderedPhotos ResolveReference Renderable GetPhotoForKey w a
     = Done ((AlbumOrdering.zero, Some err), a1)
  /\ GetCoverPhoto ResolveReference Renderable GetPhotoForKey w a
     = Done ((None, Some err), a1)
  /\ GetCoverPhotoForTemplate ResolveReference Renderable GetPhotoForKey w a
     = Done (None, a1)
  /\ GetThumbnailPhotosForTemplate ResolveReference Renderable GetPhotoForKey w a
     = Done ([], a1).
Proof.
  intros Hempty Hlisting Hcfg.
  assert (Hkeys : KeyCache a1 = None)
    by (rewrite (ordering_step_keeps_keys _ _ _ _ _ Hcfg); exact Hempty).
  assert (Hrun : GetOrderedPhotos ResolveReference Renderable GetPhotoForKey w a
                 = Done ((AlbumOrdering.zero, Some err), a1)).
  { unfold GetOrderedPhotos. rewrite Hcfg. destruct retrieved as [cfg e].
    cbn [bind]. unfold GetAllObjectKeys. now rewrite Hkeys, Hlisting. }
  unfold GetCoverPhotoForTemplate, GetCoverPhoto, GetThumbnailPhotosForTemplate.
  rewrite Hrun. repeat split; trivial.
Qed.

(** With both caches filled and neither older than an hour,
    [GetOrderedPhotos] reads nothing of the bucket and leaves the album as
    it is.  When a clean key is cached it returns, with the nil error, the
    cached configuration resolved against the cached keys: the configured
    cover if it is a clean key and the first clean key otherwise, the
    thumbnail keys, and the merged ordering.  When the cached keys hold no
    clean key it panics. *)
Theorem GetOrderedPhotos_warm
    (w : World) (a : Album) (cfg : AlbumOrderingConfiguration.t)
    (keys : list string) :
  OrderingCache a = Some cfg ->
  KeyCache a = Some keys ->
  (checkedAt (orderingClock w) <= LastOrderingCacheUpdate a + 3600000000000)%Z ->
  (checkedAt (keyClock w) <= LastKeyCacheUpdate a + 3600000000000)%Z ->
  (forall first others,
      cleanKeys keys = first :: others ->
      GetOrderedPhotos ResolveReference Renderable GetPhotoForKey w a
      = Done (({| AlbumOrdering.Cover :=
                    Some (GetPhotoForKey
                            (if nonEmpty (AlbumOrderingConfiguration.Cover cfg)
                                && containsPath (first :: others)
                                     (AlbumOrderingConfiguration.Cover cfg)
                             then AlbumOrderingConfiguration.Cover cfg
                             else first));
                  AlbumOrdering.Thumbnails :=
                    map GetPhotoForKey
                      (thumbnailKeys (first :: others)
                         (AlbumOrderingConfiguration.Thumbnails cfg));
                  AlbumOrdering.Ordering :=
                    map GetPhotoForKey
                      (mergeList (first :: others)
                         (AlbumOrderingConfiguration.Ordering cfg)) |},
               None), a))
  /\ (cleanKeys keys = [] ->
      GetOrderedPhotos ResolveReference Renderable GetPhotoForKey w a = Panic).
Proof.
  intros Hcfg Hkeys Hfresh1 Hfresh2.
  assert (Hrun :
            GetOrderedPhotos ResolveReference Renderable GetPhotoForKey w a
            = (cover <- coverKey (cleanKeys keys)
                          (AlbumOrderingConfiguration.Cover cfg) ;;
               Done (({| AlbumOrdering.Cover := Some (GetPhotoForKey cover);
                         AlbumOrdering.Thumbnails :=
                           map GetPhotoForKey
                             (thumbnailKeys (cleanKeys keys)
                                (AlbumOrderingConfiguration.Thumbnails cfg));
                         AlbumOrdering.Ordering :=
                           map GetPhotoForKey
                             (mergeList (cleanKeys keys)
                                (AlbumOrderingConfiguration.Ordering cfg)) |},
                      None), a))).
  { unfold GetOrderedPhotos.
    rewrite (ordering_cache_unchanged ResolveReference (document w) (orderingClock w)
               a cfg (OtherError "") Hcfg (or_introl Hfresh1)).
    cbn [bind].
    rewrite (key_cache_unchanged (listing w) (keyClock w) a keys Hkeys
               (or_introl Hfresh2)).
    reflexivity. }
  rewrite Hrun. split.
  - intros first others ->. unfold coverKey, index. cbn [nth_error].
    destruct (nonEmpty (AlbumOrderingConfiguration.Cover cfg)); cbn [andb];
      [destruct (containsPath (first :: others)
                   (AlbumOrderingConfiguration.Cover cfg))|]; reflexivity.
  - intros ->. now rewrite coverKey_empty.
Qed.


End ResolverFacts.

Section ResolverWitnesses.
Import Scenarios.

Lemma GetOrderedPhotos_frame_witness :
  BucketPrefix (storeKeys album0 ["album/a.jpg"; "album/b.jpg"] 1001) = BucketPrefix album0
  /\ KeyCache (storeKeys album0 ["album/a.jpg"; "album/b.jpg"] 1001) <> None.
Proof.
  destruct (GetOrderedPhotos_frame joinReference string showKey brokenOrdering album0
              (storeKeys album0 ["album/a.jpg"; "album/b.jpg"] 1001)
              ({| AlbumOrdering.Cover := Some "album/a.jpg";
                  AlbumOrdering.Thumbnails := ["album/b.jpg"];
                  AlbumOrdering.Ordering := ["album/a.jpg"; "album/b.jpg"] |}, None)
              eq_refl) as [[Hprefix _] _].
  split; [exact Hprefix | discriminate].
Defined.

Lemma GetOrderedPhotos_listing_failed_witness :
  GetCoverPhotoForTemplate joinReference string showKey
    {| document := GetObjectFailed (RequestFailure 500 "InternalError");
       orderingClock := noon;
       listing := ([], Some (OtherError "RequestError: send request failed"));
       keyClock := noon |} album0
  = Done (None, album0).
Proof.
  destruct (GetOrderedPhotos_listing_failed joinReference string showKey
              {| document := GetObjectFailed (RequestFailure 500 "InternalError");
                 orderingClock := noon;
                 listing := ([], Some (OtherError "RequestError: send request failed"));
                 keyClock := noon |} album0 album0 []
              (OtherError "RequestError: send request failed")
              (AlbumOrderingConfiguration.zero,
               Some (RequestFailure 500 "InternalError"))
              eq_refl eq_refl eq_refl)
    as [_ [_ [_ [Hcover _]]]].
  exact Hcover.
Defined.

Lemma GetOrderedPhotos_warm_witness :
  GetOrderedPhotos joinReference string showKey brokenOrdering
    (storeKeys configured ["ordering.yaml"; "a.jpg"; "b.jpg"; "c.jpg"; "d.jpg"] 999)
  = Done (({| AlbumOrdering.Cover := Some "c.jpg";
              AlbumOrdering.Thumbnails := ["b.jpg"; "a.jpg"; "c.jpg"; "d.jpg"];
              AlbumOrdering.Ordering := ["d.jpg"; "a.jpg"; "b.jpg"; "c.jpg"] |}, None),
          storeKeys configured ["ordering.yaml"; "a.jpg"; "b.jpg"; "c.jpg"; "d.jpg"] 999).
Proof.
  rewrite (proj1 (GetOrderedPhotos_warm joinReference string showKey brokenOrdering
                    (storeKeys configured
                       ["ordering.yaml"; "a.jpg"; "b.jpg"; "c.jpg"; "d.jpg"] 999)
                    _ _ eq_refl eq_refl
                    ltac:(discriminate) ltac:(discriminate))
             "a.jpg" ["b.jpg"; "c.jpg"; "d.jpg"] eq_refl).
  reflexivity.
Defined.


End ResolverWitnesses.
